(** * A bucketed event counter over a Redis-like store

    Shallow embedding of [timeseries.go]: the [Redis] interface, the
    [TimeSeries] configuration, [IncreaseAtTime], [Range] and [makeKey],
    together with an in-memory reference store and the properties of the
    specification that concern them. *)

From Stdlib Require Import ZArith Lia List.
From Stdlib Require Import SpecFloat.
From stdpp Require Import base option list strings pretty gmap.

Local Open Scope Z_scope.

(** ** Machine integers and floating point *)

(** Go's [int] on a 64-bit platform: results of additions wrap around. *)
Definition int_min : Z := - 2 ^ 63.
Definition int_max : Z := 2 ^ 63 - 1.

Definition is_int (z : Z) : Prop := int_min <= z <= int_max.

Definition wrap_int (z : Z) : Z := (z + 2 ^ 63) mod 2 ^ 64 - 2 ^ 63.

Definition add_int (a b : Z) : Z := wrap_int (a + b).

(** A [float64] that holds a whole number is represented by that number.
    Every conversion [float64(n)] of an integer in the source produces
    such a value: the nearest number with a 53-bit significand, ties to
    the even significand. *)
Definition float64 : Type := Z.

Definition round53 (a : Z) : Z :=
  if a <? 2 ^ 53 then a
  else
    let u := 2 ^ (Z.log2 a - 52) in
    let q := a / u in
    let r := a mod u in
    if 2 * r <? u then q * u
    else if u <? 2 * r then (q + 1) * u
    else if Z.even q then q * u
    else (q + 1) * u.

Definition float64_of_int (n : Z) : float64 :=
  if n <? 0 then - round53 (- n) else round53 n.

(** The same conversion through the Standard Library's IEEE 754
    specification, used to cross-check [float64_of_int] and to evaluate
    [Duration.Seconds]. *)
Definition binary64_of_int (n : Z) : spec_float :=
  binary_normalize 53 1024 n 0 false.

(** [int(f)]: conversion of a finite float to an integer truncates
    towards zero. *)
Definition int_of_binary64 (f : spec_float) : Z :=
  match f with
  | S754_finite s m e =>
      let a := if 0 <=? e then Z.pos m * 2 ^ e else Z.pos m / 2 ^ (- e) in
      if s then - a else a
  | _ => 0
  end.

(** ** Time *)

(** An instant is a number of nanoseconds since Go's zero time,
    January 1, year 1, 00:00:00 UTC, the origin that [Time.Truncate]
    counts from.  Monotonic clock readings are not part of the model. *)
Definition Time : Type := Z.

(** [time.Duration]: a number of nanoseconds. *)
Definition Duration : Type := Z.

Definition Nanosecond : Duration := 1.
Definition Millisecond : Duration := 1000000.
Definition Second : Duration := 1000000000.

(** Seconds from the zero time to the Unix epoch ([unixToInternal]). *)
Definition unixToInternal : Z := 62135596800.

(** [time.Unix(sec, nsec)]. *)
Definition UnixTime (sec nsec : Z) : Time :=
  (sec + unixToInternal) * Second + nsec.

(** [t.Unix()]: whole seconds since the Unix epoch, rounded down. *)
Definition Unix (t : Time) : Z := t / Second - unixToInternal.

(** [t.After(u)]. *)
Definition After (t u : Time) : bool := u <? t.

(** [t.Add(d)]. *)
Definition Add (t : Time) (d : Duration) : Time := t + d.

(** [t.Truncate(d)]: [t] rounded down to a multiple of [d] since the
    zero time; [t] itself when [d <= 0]. *)
Definition Truncate (t : Time) (d : Duration) : Time :=
  if d <=? 0 then t else t - t mod d.

(** [d.Seconds()]: [float64(sec) + float64(nsec)/1e9] with
    [sec := d / Second] and [nsec := d % Second], Go's division
    truncating towards zero. *)
Definition Seconds (d : Duration) : spec_float :=
  SFadd 53 1024
    (binary64_of_int (Z.quot d Second))
    (SFdiv 53 1024 (binary64_of_int (Z.rem d Second))
                   (binary64_of_int 1000000000)).

(** ** Errors and the store interface *)

Inductive error : Type :=
  | ErrBadRange
  | StoreError (msg : string).

(** The four capabilities of [type Redis interface], as transitions of a
    store state [St].  A [None] error is Go's [nil].  [ZCount] receives
    its bounds as the integers the source passes. *)
Class Redis (St : Type) : Type := {
  Incr : string -> St -> (Z * option error) * St;
  ZAdd : string -> float64 -> string -> St -> option error * St;
  ZCount : string -> Z -> Z -> St -> (Z * option error) * St;
  Expire : string -> Z -> St -> option error * St
}.

(** One request sent to the store. *)
Inductive call : Type :=
  | CIncr (key : string)
  | CZAdd (key : string) (score : float64) (member : string)
  | CZCount (key : string) (lo hi : Z)
  | CExpire (key : string) (seconds : Z).

Definition is_zadd (c : call) : bool :=
  match c with CZAdd _ _ _ => true | _ => false end.

Definition is_incr (c : call) : bool :=
  match c with CIncr _ => true | _ => false end.

Definition count_calls (p : call -> bool) (tr : list call) : nat :=
  length (List.filter p tr).

(** ** Store computations

    A computation threads the store state and collects the requests it
    sends, in order. *)
Section Monad.
Context {St : Type}.

Definition M (A : Type) : Type := St -> A * St * list call.

Definition ret {A} (a : A) : M A := fun s => (a, s, []).

Definition bind {A B} (m : M A) (k : A -> M B) : M B :=
  fun s =>
    let '(a, s1, tr1) := m s in
    let '(b, s2, tr2) := k a s1 in
    (b, s2, tr1 ++ tr2).
End Monad.

Notation "'call!' x <- m ; k" := (bind m (fun x => k))
  (at level 10, x name, m at level 100, k at level 200,
   format "'[v' 'call!'  x  <-  m ; '/' k ']'").
Notation "'call!' ' pat <- m ; k" :=
  (bind m (fun x => match x with pat => k end))
  (at level 10, pat pattern, m at level 100, k at level 200,
   format "'[v' 'call!'  ' pat  <-  m ; '/' k ']'").

Section Calls.
Context {St : Type} `{Redis St}.

Definition incr (key : string) : M (St := St) (Z * option error) :=
  fun s => let '(r, s') := Incr key s in (r, s', [CIncr key]).

Definition zadd (key : string) (score : float64) (member : string)
  : M (St := St) (option error) :=
  fun s => let '(r, s') := ZAdd key score member s in
           (r, s', [CZAdd key score member]).

Definition zcount (key : string) (lo hi : Z)
  : M (St := St) (Z * option error) :=
  fun s => let '(r, s') := ZCount key lo hi s in
           (r, s', [CZCount key lo hi]).

Definition expire (key : string) (seconds : Z)
  : M (St := St) (option error) :=
  fun s => let '(r, s') := Expire key seconds s in
           (r, s', [CExpire key seconds]).
End Calls.

(** ** The time series *)

Record TimeSeries : Type := {
  name : string;
  seriesKey : string;
  counterKey : string;
  timestep : Duration;
  ttl : Duration
}.

(** [fmt.Sprintf] with the verbs the source uses: [%s] copies a string,
    [%d] prints an integer in decimal. *)
Definition NewTimeSeries (name : string) (timestep ttl : Duration)
  : TimeSeries :=
  {| name := name;
     seriesKey := name +:+ ":ts";
     counterKey := name +:+ ":counter";
     timestep := timestep;
     ttl := ttl |}.

Definition makeKey (ts : TimeSeries) (prefix : string) (t : Time) : string :=
  prefix +:+ ":" +:+ pretty (Unix (Truncate t (timestep ts))).

(** [int(ts.ttl.Seconds())]. *)
Definition ttlSeconds (ts : TimeSeries) : Z :=
  int_of_binary64 (Seconds (ttl ts)).

(** [fmt.Sprintf("%s:%d", ts.name, id)]. *)
Definition memberName (ts : TimeSeries) (id : Z) : string :=
  name ts +:+ ":" +:+ pretty id.

(** Result of running part of the loop of [Range]: still [Running] when
    the iterations allowed so far did not reach a [return]. *)
Inductive outcome : Type :=
  | Running (current : Time) (totalCount : Z)
  | Returned (total : float64) (err : option error).

Section Operations.
Context {St : Type} `{Redis St}.

(** One iteration of the loop of [IncreaseAtTime]; [Some e] is an early
    [return e]. *)
Definition IncreaseAtTime_body (ts : TimeSeries) (t : Time)
  : M (St := St) (option error) :=
  let counterKey := makeKey ts (counterKey ts) t in
  call! '(id, err) <- incr counterKey ;
  call! _ <- expire counterKey (ttlSeconds ts) ;
  match err with
  | Some e => ret (Some e)
  | None =>
      let seriesKey := makeKey ts (seriesKey ts) t in
      call! err <- zadd seriesKey (float64_of_int (Unix t)) (memberName ts id) ;
      match err with
      | Some e => ret (Some e)
      | None =>
          call! _ <- expire seriesKey (ttlSeconds ts) ;
          ret None
      end
  end.

(** [n] further iterations of [for i := 0; i < amount; i++]. *)
Fixpoint IncreaseAtTime_loop (ts : TimeSeries) (t : Time) (n : nat)
  : M (St := St) (option error) :=
  match n with
  | O => ret None
  | S n' =>
      call! err <- IncreaseAtTime_body ts t ;
      match err with
      | Some e => ret (Some e)
      | None => IncreaseAtTime_loop ts t n'
      end
  end.

(** The loop variable runs from [0] while it is below [amount]: the
    body is entered [amount] times, and never for [amount <= 0]. *)
Definition IncreaseAtTime (ts : TimeSeries) (amount : Z) (t : Time)
  : M (St := St) (option error) :=
  IncreaseAtTime_loop ts t (Z.to_nat amount).

(** The [for { ... }] loop of [Range], at most [fuel] iterations. *)
Fixpoint Range_loop (ts : TimeSeries) (start end_ : Time) (fuel : nat)
    (current : Time) (totalCount : Z) : M (St := St) outcome :=
  match fuel with
  | O => ret (Running current totalCount)
  | S fuel' =>
      let seriesKey := makeKey ts (seriesKey ts) current in
      call! '(count, err) <- zcount seriesKey (Unix start) (Unix end_) ;
      match err with
      | Some e => ret (Returned 0 (Some e))
      | None =>
          let totalCount := add_int totalCount count in
          let current := Add current (timestep ts) in
          if After current end_
          then ret (Returned (float64_of_int totalCount) None)
          else Range_loop ts start end_ fuel' current totalCount
      end
  end.

Definition Range (ts : TimeSeries) (fuel : nat) (start end_ : Time)
  : M (St := St) outcome :=
  if After start end_ then ret (Returned 0 (Some ErrBadRange))
  else Range_loop ts start end_ fuel (Truncate start (timestep ts)) 0.
End Operations.

(** ** An in-memory store *)

(** Modelled from the spec: the store behind the [Redis] interface is not
    part of the repository; this one follows the capability table of the
    specification.  [Incr] creates an absent counter at 0 and returns the
    value after the increment; [ZAdd] adds the member or updates its
    score; [ZCount] counts the members whose score lies between the two
    bounds, both included, the bounds being read as scores; [Expire]
    records the time-to-live.  No request fails, and no time passes
    between requests, so no key is evicted. *)
Record MemStore : Type := {
  counters : gmap string Z;
  series : gmap string (gmap string float64);
  expiry : gmap string Z
}.

Definition empty_store : MemStore :=
  {| counters := ∅; series := ∅; expiry := ∅ |}.

Definition sorted_set (s : MemStore) (key : string) : gmap string float64 :=
  default ∅ (series s !! key).

Definition in_score_range (lo hi : Z) (p : string * float64) : Prop :=
  float64_of_int lo <= p.2 <= float64_of_int hi.

Global Instance in_score_range_dec lo hi p : Decision (in_score_range lo hi p).
Proof. unfold in_score_range. apply _. Defined.

Definition count_in_range (zs : gmap string float64) (lo hi : Z) : Z :=
  Z.of_nat (size (filter (in_score_range lo hi) zs)).

Definition mem_Incr (key : string) (s : MemStore)
  : (Z * option error) * MemStore :=
  let v := default 0 (counters s !! key) + 1 in
  ((v, None),
   {| counters := <[key := v]> (counters s);
      series := series s;
      expiry := expiry s |}).

Definition mem_ZAdd (key : string) (score : float64) (member : string)
    (s : MemStore) : option error * MemStore :=
  (None,
   {| counters := counters s;
      series := <[key := <[member := score]> (sorted_set s key)]> (series s);
      expiry := expiry s |}).

Definition mem_ZCount (key : string) (lo hi : Z) (s : MemStore)
  : (Z * option error) * MemStore :=
  ((count_in_range (sorted_set s key) lo hi, None), s).

Definition mem_Expire (key : string) (seconds : Z) (s : MemStore)
  : option error * MemStore :=
  (None,
   {| counters := counters s;
      series := series s;
      expiry := <[key := seconds]> (expiry s) |}).

Global Instance MemStore_Redis : Redis MemStore := {|
  Incr := mem_Incr;
  ZAdd := mem_ZAdd;
  ZCount := mem_ZCount;
  Expire := mem_Expire
|}.

(** ** A store whose requests can fail

    The in-memory store behind a budget per capability: [Some n] lets
    [n] more requests of that kind through and fails every later one,
    leaving the store as it is; [None] never fails. *)
Record Faulty : Type := {
  inner : MemStore;
  incr_budget : option nat;
  zadd_budget : option nat;
  zcount_budget : option nat
}.

Definition spend (b : option nat) : option (option nat) :=
  match b with
  | None => Some None
  | Some (S n) => Some (Some n)
  | Some O => None
  end.

Definition faulty_Incr (key : string) (s : Faulty)
  : (Z * option error) * Faulty :=
  match spend (incr_budget s) with
  | Some b =>
      let '(r, m) := mem_Incr key (inner s) in
      (r, {| inner := m; incr_budget := b;
             zadd_budget := zadd_budget s; zcount_budget := zcount_budget s |})
  | None => ((0, Some (StoreError "incr")), s)
  end.

Definition faulty_ZAdd (key : string) (score : float64) (member : string)
    (s : Faulty) : option error * Faulty :=
  match spend (zadd_budget s) with
  | Some b =>
      let '(r, m) := mem_ZAdd key score member (inner s) in
      (r, {| inner := m; incr_budget := incr_budget s;
             zadd_budget := b; zcount_budget := zcount_budget s |})
  | None => (Some (StoreError "zadd"), s)
  end.

Definition faulty_ZCount (key : string) (lo hi : Z) (s : Faulty)
  : (Z * option error) * Faulty :=
  match spend (zcount_budget s) with
  | Some b =>
      let '(r, m) := mem_ZCount key lo hi (inner s) in
      (r, {| inner := m; incr_budget := incr_budget s;
             zadd_budget := zadd_budget s; zcount_budget := b |})
  | None => ((0, Some (StoreError "zcount")), s)
  end.

Definition faulty_Expire (key : string) (seconds : Z) (s : Faulty)
  : option error * Faulty :=
  let '(r, m) := mem_Expire key seconds (inner s) in
  (r, {| inner := m; incr_budget := incr_budget s;
         zadd_budget := zadd_budget s; zcount_budget := zcount_budget s |}).

Global Instance Faulty_Redis : Redis Faulty := {|
  Incr := faulty_Incr;
  ZAdd := faulty_ZAdd;
  ZCount := faulty_ZCount;
  Expire := faulty_Expire
|}.

Definition faulty (incr_ok zadd_ok zcount_ok : option nat) : Faulty :=
  {| inner := empty_store; incr_budget := incr_ok;
     zadd_budget := zadd_ok; zcount_budget := zcount_ok |}.

(** ** Bucket identifiers *)

(** The number [makeKey] prints: the Unix time of the instant truncated
    to the bucket width. *)
Definition bucketEpochSeconds (ts : TimeSeries) (t : Time) : Z :=
  Unix (Truncate t (timestep ts)).

(** The specification's reading of the same number: the Unix time in
    seconds of the instant, rounded down to a multiple of the bucket
    width in seconds. *)
Definition spec_bucketEpochSeconds (ts : TimeSeries) (t : Time) : Z :=
  let width := timestep ts / Second in
  Unix t / width * width.

(** The requests [IncreaseAtTime] may send, given the two keys of the
    bucket and the naming of members. *)
Definition names_bucket (ck sk : string) (member : Z -> string) (c : call)
  : Prop :=
  match c with
  | CIncr key => key = ck
  | CZAdd key _ m => key = sk /\ exists id, m = member id
  | CExpire key _ => key = ck \/ key = sk
  | CZCount _ _ _ => False
  end.

(** ** The state of a bucket in the in-memory store *)

Definition counter_value (s : MemStore) (key : string) : Z :=
  default 0 (counters s !! key).

(** No member of the series set is named after a counter value that the
    counter has yet to reach. *)
Definition ids_unused (ts : TimeSeries) (s : MemStore) (ck sk : string)
  : Prop :=
  forall id, counter_value s ck < id ->
             sorted_set s sk !! memberName ts id = None.

(** ** Requests of a range query *)

Definition is_expire (c : call) : bool :=
  match c with CExpire _ _ => true | _ => false end.

(** The count queries for [n] consecutive buckets, the first one starting
    at [c0], with the bounds that [Range] passes. *)
Definition bucket_queries (ts : TimeSeries) (start end_ c0 : Time) (n : nat)
  : list call :=
  List.map
    (fun i : nat =>
       CZCount (makeKey ts (seriesKey ts) (c0 + Z.of_nat i * timestep ts))
         (Unix start) (Unix end_))
    (seq 0 n).

(** ** A store that cannot set an expiry

    The in-memory store with an [Expire] that always fails and changes
    nothing. *)
Record Unexpiring : Type := { kept : MemStore }.

Global Instance Unexpiring_Redis : Redis Unexpiring := {|
  Incr key s :=
    let '(r, m) := mem_Incr key (kept s) in (r, {| kept := m |});
  ZAdd key score member s :=
    let '(r, m) := mem_ZAdd key score member (kept s) in (r, {| kept := m |});
  ZCount key lo hi s :=
    let '(r, m) := mem_ZCount key lo hi (kept s) in (r, {| kept := m |});
  Expire key seconds s := (Some (StoreError "expire"), s)
|}.

(** ** A history of recordings *)

(** The store after a sequence of calls [IncreaseAtTime(amount, t)], in
    order. *)
Fixpoint record_all (ts : TimeSeries) (evs : list (Z * Time))
    (s : MemStore) : MemStore :=
  match evs with
  | [] => s
  | (k, t) :: rest => record_all ts rest (IncreaseAtTime ts k t s).1.2
  end.

(** [t]'s Unix time in seconds lies between [lo] and [hi], both
    included. *)
Definition in_seconds (lo hi : Z) (t : Time) : bool :=
  (lo <=? Unix t) && (Unix t <=? hi).

(** The number of events of a history recorded in the seconds from [lo]
    to [hi]. *)
Fixpoint events_between (lo hi : Z) (evs : list (Z * Time)) : Z :=
  match evs with
  | [] => 0
  | (k, t) :: rest =>
      (if in_seconds lo hi t then k else 0) + events_between lo hi rest
  end.

(** Those of them that were recorded under the series key [key]. *)
Fixpoint tally (ts : TimeSeries) (key : string) (lo hi : Z)
    (evs : list (Z * Time)) : Z :=
  match evs with
  | [] => 0
  | (k, t) :: rest =>
      (if in_seconds lo hi t
          && bool_decide (makeKey ts (seriesKey ts) t = key)
       then k else 0)
      + tally ts key lo hi rest
  end.

(** The sum of [f] over [m] consecutive bucket starts from [c0]. *)
Fixpoint sum_buckets (ts : TimeSeries) (f : Time -> Z) (c0 : Time) (m : nat)
  : Z :=
  match m with
  | O => 0
  | S m' => f c0 + sum_buckets ts f (Add c0 (timestep ts)) m'
  end.

(** No bucket has a member named after a counter value that its counter
    has yet to reach. *)
Definition all_ids_unused (ts : TimeSeries) (s : MemStore) : Prop :=
  forall t, ids_unused ts s (makeKey ts (counterKey ts) t)
                            (makeKey ts (seriesKey ts) t).

(** ** Member names and bucket numbers, as the specification has them *)

(** Replaying a list of requests on a store: every series-set add names
    its member [<nm>:<id>], where [id] is the value that the latest
    increment returned ([last], before any increment). *)
Fixpoint members_follow_counter {St : Type} `{Redis St} (nm : string)
    (last : Z) (s : St) (tr : list call) : Prop :=
  match tr with
  | [] => True
  | CIncr key :: rest =>
      members_follow_counter nm (Incr key s).1.1 (Incr key s).2 rest
  | CExpire key seconds :: rest =>
      members_follow_counter nm last (Expire key seconds s).2 rest
  | CZAdd key score member :: rest =>
      member = nm +:+ ":" +:+ pretty last
      /\ members_follow_counter nm last (ZAdd key score member s).2 rest
  | CZCount key lo hi :: rest =>
      members_follow_counter nm last (ZCount key lo hi s).2 rest
  end.


(** ** Control flow of [IncreaseAtTime] over any store *)

Ltac unfold_calls :=
  unfold bind, ret, incr, zadd, zcount, expire in *.

Section RecordFlow.
Context {St : Type} `{Redis St}.
Variable ts : TimeSeries.
Variable t : Time.

Let ck : string := makeKey ts (counterKey ts) t.
Let sk : string := makeKey ts (seriesKey ts) t.
Let secs : Z := ttlSeconds ts.
Let score : float64 := float64_of_int (Unix t).

(** The increment fails: the counter key's expiry is still refreshed,
    then the iteration returns the error. *)
Lemma body_incr_error (s s2 : St) (id : Z) (e : error) :
  Incr ck s = ((id, Some e), s2) ->
  IncreaseAtTime_body ts t s
  = (Some e, (Expire ck secs s2).2, [CIncr ck; CExpire ck secs]).
Proof.
  intros HI. unfold IncreaseAtTime_body. unfold_calls.
  fold ck. rewrite HI. fold secs.
  destruct (Expire ck secs s2) as [r3 s3]. reflexivity.
Qed.

(** The increment succeeds and the series-set add fails. *)
Lemma body_zadd_error (s s2 s4 : St) (id : Z) (e : error) :
  Incr ck s = ((id, None), s2) ->
  ZAdd sk score (memberName ts id) (Expire ck secs s2).2 = (Some e, s4) ->
  IncreaseAtTime_body ts t s
  = (Some e, s4,
     [CIncr ck; CExpire ck secs; CZAdd sk score (memberName ts id)]).
Proof.
  intros HI HZ. unfold IncreaseAtTime_body. unfold_calls.
  fold ck sk secs score. rewrite HI.
  destruct (Expire ck secs s2) as [r3 s3]. simpl in HZ. rewrite HZ.
  reflexivity.
Qed.

(** Both succeed: all four requests are sent. *)
Lemma body_ok (s s2 s4 : St) (id : Z) :
  Incr ck s = ((id, None), s2) ->
  ZAdd sk score (memberName ts id) (Expire ck secs s2).2 = (None, s4) ->
  IncreaseAtTime_body ts t s
  = (None, (Expire sk secs s4).2,
     [CIncr ck; CExpire ck secs; CZAdd sk score (memberName ts id);
      CExpire sk secs]).
Proof.
  intros HI HZ. unfold IncreaseAtTime_body. unfold_calls.
  fold ck sk secs score. rewrite HI.
  destruct (Expire ck secs s2) as [r3 s3]. simpl in HZ. rewrite HZ.
  destruct (Expire sk secs s4) as [r5 s5]. reflexivity.
Qed.

(** Whatever the store answers, one iteration sends one increment and
    at most one series-set add; it sends exactly one when it succeeds. *)
Lemma body_counts (s s' : St) (r : option error) (tr : list call) :
  IncreaseAtTime_body ts t s = (r, s', tr) ->
  count_calls is_incr tr = 1%nat
  /\ (count_calls is_zadd tr <= 1)%nat
  /\ (r = None -> count_calls is_zadd tr = 1%nat).
Proof.
  unfold IncreaseAtTime_body. unfold_calls. fold ck sk secs score.
  destruct (Incr ck s) as [[id [e|]] s2];
    destruct (Expire ck secs s2) as [r3 s3].
  - intros [= <- <- <-]. cbn. repeat split; solve [lia | discriminate].
  - destruct (ZAdd sk score (memberName ts id) s3) as [[e|] s4].
    + intros [= <- <- <-]. cbn. repeat split; solve [lia | discriminate].
    + destruct (Expire sk secs s4) as [r5 s5].
      intros [= <- <- <-]. cbn. repeat split; lia.
Qed.

(** One unfolding of the loop. *)
Lemma IncreaseAtTime_loop_S (n : nat) (s : St) :
  IncreaseAtTime_loop ts t (S n) s
  = match IncreaseAtTime_body ts t s with
    | (Some e, sb, trb) => (Some e, sb, trb)
    | (None, sb, trb) =>
        let '(r, s', tr') := IncreaseAtTime_loop ts t n sb in
        (r, s', trb ++ tr')
    end.
Proof.
  cbn [IncreaseAtTime_loop]. unfold bind at 1.
  destruct (IncreaseAtTime_body ts t s) as [[[e|] sb] trb].
  - unfold ret. rewrite app_nil_r. reflexivity.
  - reflexivity.
Qed.

(** A run of [n] iterations without error, continued by [m] more. *)
Lemma IncreaseAtTime_loop_app (n m : nat) (s s1 : St) (tr1 : list call) :
  IncreaseAtTime_loop ts t n s = (None, s1, tr1) ->
  IncreaseAtTime_loop ts t (n + m) s
  = let '(r, s2, tr2) := IncreaseAtTime_loop ts t m s1 in
    (r, s2, tr1 ++ tr2).
Proof.
  revert s tr1. induction n as [|n IH]; intros s tr1.
  - cbn. unfold ret. intros [= <- <-].
    destruct (IncreaseAtTime_loop ts t m s) as [[r s2] tr2]. reflexivity.
  - cbn [Nat.add]. rewrite !IncreaseAtTime_loop_S.
    destruct (IncreaseAtTime_body ts t s) as [[[e|] sb] trb].
    + discriminate.
    + destruct (IncreaseAtTime_loop ts t n sb) as [[r' s'] tr'] eqn:E.
      intros [= -> -> <-].
      rewrite (IH _ _ E).
      destruct (IncreaseAtTime_loop ts t m s1) as [[r s2] tr2].
      rewrite app_assoc. reflexivity.
Qed.

Lemma count_calls_app (p : call -> bool) (l1 l2 : list call) :
  count_calls p (l1 ++ l2) = (count_calls p l1 + count_calls p l2)%nat.
Proof.
  unfold count_calls. rewrite List.filter_app, length_app. reflexivity.
Qed.

(** [n] iterations without error sent [n] increments and [n] adds. *)
Lemma IncreaseAtTime_loop_ok_counts (n : nat) (s s1 : St) (tr1 : list call) :
  IncreaseAtTime_loop ts t n s = (None, s1, tr1) ->
  count_calls is_incr tr1 = n /\ count_calls is_zadd tr1 = n.
Proof.
  revert s tr1. induction n as [|n IH]; intros s tr1.
  - cbn. unfold ret. intros [= <- <-]. split; reflexivity.
  - rewrite IncreaseAtTime_loop_S.
    destruct (IncreaseAtTime_body ts t s) as [[[e|] sb] trb] eqn:Eb.
    + discriminate.
    + destruct (IncreaseAtTime_loop ts t n sb) as [[r' s'] tr'] eqn:E.
      intros [= -> -> <-].
      destruct (body_counts _ _ _ _ Eb) as (Hi & _ & Hz).
      destruct (IH _ _ E) as [IHi IHz].
      rewrite !count_calls_app, Hi, (Hz eq_refl), IHi, IHz. split; lia.
Qed.

(** A loop that meets an error in its first iteration stops there. *)
Lemma IncreaseAtTime_loop_error (m : nat) (s s' : St) (e : error)
    (tr : list call) :
  IncreaseAtTime_body ts t s = (Some e, s', tr) ->
  IncreaseAtTime_loop ts t (S m) s = (Some e, s', tr).
Proof.
  intros Hb. rewrite IncreaseAtTime_loop_S, Hb. reflexivity.
Qed.
End RecordFlow.

(** ** Control flow of [Range] over any store *)

Section RangeFlow.
Context {St : Type} `{Redis St}.
Variable ts : TimeSeries.
Variables start end_ : Time.

Let lo : Z := Unix start.
Let hi : Z := Unix end_.

(** One unfolding of the loop. *)
Lemma Range_loop_S (fuel : nat) (current : Time) (totalCount : Z) (s : St) :
  Range_loop ts start end_ (S fuel) current totalCount s
  = let key := makeKey ts (seriesKey ts) current in
    match ZCount key lo hi s with
    | ((count, Some e), s1) => (Returned 0 (Some e), s1, [CZCount key lo hi])
    | ((count, None), s1) =>
        if After (Add current (timestep ts)) end_
        then (Returned (float64_of_int (add_int totalCount count)) None,
              s1, [CZCount key lo hi])
        else
          let '(r, s2, tr2) :=
            Range_loop ts start end_ fuel (Add current (timestep ts))
              (add_int totalCount count) s1 in
          (r, s2, CZCount key lo hi :: tr2)
    end.
Proof.
  cbn [Range_loop]. unfold_calls. fold lo hi.
  destruct (ZCount (makeKey ts (seriesKey ts) current) lo hi s)
    as [[count [e|]] s1]; cbn.
  - reflexivity.
  - destruct (After (Add current (timestep ts)) end_); reflexivity.
Qed.

(** A loop still running after [j] iterations, continued by [m] more. *)
Lemma Range_loop_app (j m : nat) (c0 : Time) (n0 : Z) (s s1 : St)
    (cur : Time) (tot : Z) (tr1 : list call) :
  Range_loop ts start end_ j c0 n0 s = (Running cur tot, s1, tr1) ->
  Range_loop ts start end_ (j + m) c0 n0 s
  = let '(r, s2, tr2) := Range_loop ts start end_ m cur tot s1 in
    (r, s2, tr1 ++ tr2).
Proof.
  revert c0 n0 s tr1. induction j as [|j IH]; intros c0 n0 s tr1.
  - cbn. unfold ret. intros [= <- <- <- <-].
    destruct (Range_loop ts start end_ m c0 n0 s) as [[r s2] tr2].
    reflexivity.
  - cbn [Nat.add]. rewrite !Range_loop_S. cbn zeta.
    destruct (ZCount (makeKey ts (seriesKey ts) c0) lo hi s)
      as [[count [e|]] sq]; [discriminate|].
    destruct (After (Add c0 (timestep ts)) end_); [discriminate|].
    destruct (Range_loop ts start end_ j (Add c0 (timestep ts))
                (add_int n0 count) sq) as [[r' s'] tr'] eqn:E.
    intros [= -> -> <-]. rewrite (IH _ _ _ _ E).
    destruct (Range_loop ts start end_ m cur tot s1) as [[r s2] tr2].
    reflexivity.
Qed.

(** Once the loop has returned, more fuel changes nothing. *)
Lemma Range_loop_returned (j m : nat) (c0 : Time) (n0 : Z) (s s1 : St)
    (total : float64) (err : option error) (tr1 : list call) :
  Range_loop ts start end_ j c0 n0 s = (Returned total err, s1, tr1) ->
  Range_loop ts start end_ (j + m) c0 n0 s = (Returned total err, s1, tr1).
Proof.
  revert c0 n0 s tr1. induction j as [|j IH]; intros c0 n0 s tr1.
  - cbn. unfold ret. discriminate.
  - cbn [Nat.add]. rewrite !Range_loop_S. cbn zeta.
    destruct (ZCount (makeKey ts (seriesKey ts) c0) lo hi s)
      as [[count [e|]] sq]; [tauto|].
    destruct (After (Add c0 (timestep ts)) end_); [tauto|].
    destruct (Range_loop ts start end_ j (Add c0 (timestep ts))
                (add_int n0 count) sq) as [[r' s'] tr'] eqn:E.
    intros [= -> -> <-]. rewrite (IH _ _ _ _ E). reflexivity.
Qed.

(** While the loop runs, [current] has advanced by one bucket width per
    iteration and has not passed [end_]. *)
Lemma Range_loop_running (j : nat) (c0 : Time) (n0 : Z) (s s1 : St)
    (cur : Time) (tot : Z) (tr1 : list call) :
  Range_loop ts start end_ j c0 n0 s = (Running cur tot, s1, tr1) ->
  cur = c0 + Z.of_nat j * timestep ts
  /\ ((0 < j)%nat -> cur <= end_)
  /\ length tr1 = j.
Proof.
  revert c0 n0 s tr1. induction j as [|j IH]; intros c0 n0 s tr1.
  - cbn. unfold ret. intros [= <- <- <- <-].
    repeat split; [lia | intros; lia].
  - rewrite Range_loop_S. cbn zeta.
    destruct (ZCount (makeKey ts (seriesKey ts) c0) lo hi s)
      as [[count [e|]] sq]; [discriminate|].
    destruct (After (Add c0 (timestep ts)) end_) eqn:EA; [discriminate|].
    destruct (Range_loop ts start end_ j (Add c0 (timestep ts))
                (add_int n0 count) sq) as [[r' s'] tr'] eqn:E.
    intros [= -> -> <-]. destruct (IH _ _ _ _ E) as (Hc & Hle & Hlen).
    unfold After, Add in *. apply Z.ltb_ge in EA.
    repeat split.
    + lia.
    + intros _. destruct j; [lia|]. apply Hle. lia.
    + cbn. lia.
Qed.

(** With a positive bucket width the loop returns once the fuel exceeds
    the number of bucket widths between [current] and [end_]. *)
Lemma Range_loop_terminates (fuel : nat) (c0 : Time) (n0 : Z) (s : St) :
  0 < timestep ts ->
  (end_ - c0) / timestep ts <= Z.of_nat fuel ->
  exists total err s1 tr1,
    Range_loop ts start end_ (S fuel) c0 n0 s
    = (Returned total err, s1, tr1).
Proof.
  intros Hw. revert c0 n0 s. induction fuel as [|fuel IH]; intros c0 n0 s Hf;
    rewrite Range_loop_S; cbn zeta;
    destruct (ZCount (makeKey ts (seriesKey ts) c0) lo hi s)
      as [[count [e|]] sq]; eauto;
    destruct (After (Add c0 (timestep ts)) end_) eqn:EA; eauto;
    unfold After, Add in EA; apply Z.ltb_ge in EA.
  - exfalso.
    assert (1 <= (end_ - c0) / timestep ts); [|lia].
    apply Z.div_le_lower_bound; lia.
  - destruct (IH (Add c0 (timestep ts)) (add_int n0 count) sq)
      as (total & err & s1 & tr1 & E).
    + unfold Add.
      replace (end_ - (c0 + timestep ts))
        with ((end_ - c0) + (-1) * timestep ts) by lia.
      rewrite Z.div_add by lia. lia.
    + rewrite E. eauto.
Qed.
End RangeFlow.

(** [Range] returns: with a positive bucket width, fuel beyond the number
    of bucket widths between [start] and [end_] is enough, whatever the
    store answers. *)
Lemma Range_returns {St : Type} `{Redis St}
    (ts : TimeSeries) (fuel : nat) (start end_ : Time) (s : St) :
  0 < timestep ts ->
  (end_ - start) / timestep ts + 1 <= Z.of_nat fuel ->
  exists total err s1 tr1,
    Range ts (S fuel) start end_ s = (Returned total err, s1, tr1).
Proof.
  intros Hw Hf. unfold Range.
  destruct (After start end_) eqn:HA; [unfold ret; eauto|].
  apply Range_loop_terminates; [exact Hw|].
  unfold After in HA. apply Z.ltb_ge in HA.
  unfold Truncate. destruct (Z.leb_spec (timestep ts) 0); [lia|].
  pose proof (Z.mod_pos_bound start (timestep ts) Hw) as Hm.
  assert ((end_ - (start - start mod timestep ts)) / timestep ts
          <= (end_ - start + 1 * timestep ts) / timestep ts)
    by (apply Z.div_le_mono; lia).
  rewrite Z.div_add in * by lia. lia.
Qed.

(** A query over a single instant visits one bucket, whatever the store
    answers. *)
Lemma Range_point_one_query {St : Type} `{Redis St}
    (ts : TimeSeries) (fuel : nat) (t : Time) (s : St) :
  0 < timestep ts ->
  (Range ts (S fuel) t t s).2
  = [CZCount (makeKey ts (seriesKey ts) (Truncate t (timestep ts)))
       (Unix t) (Unix t)].
Proof.
  intros Hw. unfold Range, After. rewrite Z.ltb_irrefl.
  rewrite Range_loop_S. cbn zeta.
  destruct (ZCount _ (Unix t) (Unix t) s) as [[count [e|]] s1];
    [reflexivity|].
  unfold After, Add, Truncate.
  destruct (Z.leb_spec (timestep ts) 0); [lia|].
  pose proof (Z.mod_pos_bound t (timestep ts) Hw).
  destruct (Z.ltb_spec t (t - t mod timestep ts + timestep ts)); [|lia].
  reflexivity.
Qed.

(** ** Error policy and degenerate amounts *)

(** C5.  When [start] is after [end_], [Range] returns total 0 with
    [ErrBadRange]; the store is left as it was and no request is sent. *)
Theorem Range_rejects_bad_range {St : Type} `{Redis St}
    (ts : TimeSeries) (fuel : nat) (start end_ : Time) (s : St) :
  After start end_ = true ->
  Range ts fuel start end_ s = (Returned 0 (Some ErrBadRange), s, []).
Proof.
  intros HA. unfold Range. rewrite HA. reflexivity.
Qed.

Lemma Range_rejects_bad_range_witness :
  Range (NewTimeSeries "hits" (60 * Second) (3600 * Second)) 0
    (UnixTime 120 0) (UnixTime 60 0) empty_store
  = (Returned 0 (Some ErrBadRange), empty_store, []).
Proof.
  apply Range_rejects_bad_range. reflexivity.
Defined.

(** C9.  [IncreaseAtTime] with amount 0 runs no iteration: it sends no
    request, leaves the store as it was and returns no error. *)
Theorem IncreaseAtTime_zero {St : Type} `{Redis St}
    (ts : TimeSeries) (t : Time) (s : St) :
  IncreaseAtTime ts 0 t s = (None, s, []).
Proof.
  reflexivity.
Qed.

(** C10.  A negative amount is not rejected: the loop condition
    [i < amount] fails at once, so no request is sent and the result is
    [nil], as for amount 0. *)
Theorem IncreaseAtTime_negative {St : Type} `{Redis St}
    (ts : TimeSeries) (amount : Z) (t : Time) (s : St) :
  amount < 0 ->
  IncreaseAtTime ts amount t s = (None, s, []).
Proof.
  intros Hneg. unfold IncreaseAtTime.
  rewrite Z2Nat.nonpos by lia. reflexivity.
Qed.

Lemma IncreaseAtTime_negative_witness :
  IncreaseAtTime (NewTimeSeries "hits" (60 * Second) (3600 * Second))
    (-3) (UnixTime 120 0) empty_store
  = (None, empty_store, []).
Proof.
  apply IncreaseAtTime_negative. lia.
Defined.

(** C6.  Let the first [i - 1] units of [IncreaseAtTime] succeed and the
    increment of unit [i] fail with [e].  Then the call returns [e]; after
    the failed increment it only refreshes the counter key's expiry, so no
    series-set add is sent for unit [i], exactly [i - 1] adds were sent in
    all, and the store is the one the earlier units left, changed by these
    two requests alone: nothing recorded is taken back. *)
Theorem IncreaseAtTime_incr_failure {St : Type} `{Redis St}
    (ts : TimeSeries) (t : Time) (amount : Z) (i : nat)
    (s s1 s2 : St) (tr1 : list call) (id : Z) (e : error) :
  let ck := makeKey ts (counterKey ts) t in
  (1 <= i)%nat ->
  Z.of_nat i <= amount ->
  IncreaseAtTime ts (Z.of_nat i - 1) t s = (None, s1, tr1) ->
  Incr ck s1 = ((id, Some e), s2) ->
  let tr := tr1 ++ [CIncr ck; CExpire ck (ttlSeconds ts)] in
  IncreaseAtTime ts amount t s
  = (Some e, (Expire ck (ttlSeconds ts) s2).2, tr)
  /\ count_calls is_zadd tr = (i - 1)%nat
  /\ count_calls is_incr tr = i.
Proof.
  intros ck Hi Ham Hpre HI tr. unfold IncreaseAtTime in *.
  replace (Z.to_nat (Z.of_nat i - 1)) with (i - 1)%nat in Hpre by lia.
  replace (Z.to_nat amount) with ((i - 1) + S (Z.to_nat amount - i))%nat
    by lia.
  rewrite (IncreaseAtTime_loop_app _ _ _ _ _ _ _ Hpre).
  rewrite (IncreaseAtTime_loop_error _ _ _ _ _ _ _
             (body_incr_error ts t _ _ _ _ HI)).
  destruct (IncreaseAtTime_loop_ok_counts _ _ _ _ _ _ Hpre) as [Hci Hcz].
  subst tr. rewrite !count_calls_app, Hci, Hcz. cbn.
  repeat split; lia.
Qed.

Lemma IncreaseAtTime_incr_failure_witness :
  let ts := NewTimeSeries "hits" Second (60 * Second) in
  let t := UnixTime 100 0 in
  let s := faulty (Some 2%nat) None None in
  let run := IncreaseAtTime ts 2 t s in
  let tr := run.2 ++ [CIncr "hits:counter:100"; CExpire "hits:counter:100" 60] in
  IncreaseAtTime ts 5 t s
  = (Some (StoreError "incr"),
     (Expire "hits:counter:100" 60 run.1.2).2, tr)
  /\ count_calls is_zadd tr = 2%nat
  /\ count_calls is_incr tr = 3%nat.
Proof.
  intros ts t s run tr.
  apply (IncreaseAtTime_incr_failure ts t 5 3 s run.1.2 run.1.2 run.2 0
           (StoreError "incr")).
  - lia.
  - lia.
  - vm_compute. reflexivity.
  - vm_compute. reflexivity.
Defined.

(** C7.  Let the first [i - 1] units succeed, the increment of unit [i]
    succeed with [id] and its series-set add fail with [e].  Then the call
    returns [e] and stops at the failed add: the counter holds the
    increment of unit [i], the store is as that add left it, and the
    series key's expiry is not refreshed for this unit. *)
Theorem IncreaseAtTime_zadd_failure {St : Type} `{Redis St}
    (ts : TimeSeries) (t : Time) (amount : Z) (i : nat)
    (s s1 s2 s4 : St) (tr1 : list call) (id : Z) (e : error) :
  let ck := makeKey ts (counterKey ts) t in
  let sk := makeKey ts (seriesKey ts) t in
  let score := float64_of_int (Unix t) in
  (1 <= i)%nat ->
  Z.of_nat i <= amount ->
  IncreaseAtTime ts (Z.of_nat i - 1) t s = (None, s1, tr1) ->
  Incr ck s1 = ((id, None), s2) ->
  ZAdd sk score (memberName ts id) (Expire ck (ttlSeconds ts) s2).2
  = (Some e, s4) ->
  IncreaseAtTime ts amount t s
  = (Some e, s4,
     tr1 ++ [CIncr ck; CExpire ck (ttlSeconds ts);
             CZAdd sk score (memberName ts id)])
  /\ count_calls is_incr tr1 = (i - 1)%nat
  /\ count_calls is_zadd tr1 = (i - 1)%nat.
Proof.
  intros ck sk score Hi Ham Hpre HI HZ. unfold IncreaseAtTime in *.
  replace (Z.to_nat (Z.of_nat i - 1)) with (i - 1)%nat in Hpre by lia.
  replace (Z.to_nat amount) with ((i - 1) + S (Z.to_nat amount - i))%nat
    by lia.
  rewrite (IncreaseAtTime_loop_app _ _ _ _ _ _ _ Hpre).
  rewrite (IncreaseAtTime_loop_error _ _ _ _ _ _ _
             (body_zadd_error ts t _ _ _ _ _ HI HZ)).
  split; [reflexivity|].
  exact (IncreaseAtTime_loop_ok_counts _ _ _ _ _ _ Hpre).
Qed.

Lemma IncreaseAtTime_zadd_failure_witness :
  let ts := NewTimeSeries "hits" Second (60 * Second) in
  let t := UnixTime 100 0 in
  let s := faulty None (Some 2%nat) None in
  let run := IncreaseAtTime ts 2 t s in
  let s2 := (Incr "hits:counter:100" run.1.2).2 in
  let s4 := (Expire "hits:counter:100" 60 s2).2 in
  (IncreaseAtTime ts 5 t s
   = (Some (StoreError "zadd"), s4,
      run.2 ++ [CIncr "hits:counter:100"; CExpire "hits:counter:100" 60;
                CZAdd "hits:ts:100" 100 "hits:3"])
   /\ count_calls is_incr run.2 = 2%nat
   /\ count_calls is_zadd run.2 = 2%nat)
  /\ counters (inner s4) !! "hits:counter:100" = Some 3
  /\ size (sorted_set (inner s4) "hits:ts:100") = 2%nat.
Proof.
  intros ts t s run s2 s4. split.
  - apply (IncreaseAtTime_zadd_failure ts t 5 3 s run.1.2 s2 s4 run.2 3
             (StoreError "zadd")).
    + lia.
    + lia.
    + vm_compute. reflexivity.
    + vm_compute. reflexivity.
    + vm_compute. reflexivity.
  - vm_compute. split; reflexivity.
Defined.

(** C8.  For [start] not after [end_], let the loop of [Range] run [j]
    iterations without returning, and let the count query of the next
    bucket fail with [e].  Then [Range] returns total 0 with [e], whatever
    sum it had accumulated, and sends nothing after the failed query. *)
Theorem Range_query_failure {St : Type} `{Redis St}
    (ts : TimeSeries) (start end_ : Time) (j fuel : nat)
    (s s1 s2 : St) (cur : Time) (tot count : Z) (tr1 : list call)
    (e : error) :
  let key := makeKey ts (seriesKey ts) cur in
  After start end_ = false ->
  Range ts j start end_ s = (Running cur tot, s1, tr1) ->
  ZCount key (Unix start) (Unix end_) s1 = ((count, Some e), s2) ->
  Range ts (j + S fuel) start end_ s
  = (Returned 0 (Some e), s2,
     tr1 ++ [CZCount key (Unix start) (Unix end_)]).
Proof.
  intros key HA Hrun HQ. unfold Range in *. rewrite HA in *.
  rewrite (Range_loop_app _ _ _ _ _ _ _ _ _ _ _ _ Hrun).
  rewrite Range_loop_S. cbn zeta. fold key. rewrite HQ. reflexivity.
Qed.

Lemma Range_query_failure_witness :
  let ts := NewTimeSeries "hits" Second (60 * Second) in
  let s := (IncreaseAtTime ts 3 (UnixTime 100 0)
              (faulty None None (Some 1%nat))).1.2 in
  let run := Range ts 1 (UnixTime 100 0) (UnixTime 105 0) s in
  run.1.1 = Running (UnixTime 101 0) 3
  /\ Range ts 4 (UnixTime 100 0) (UnixTime 105 0) s
     = (Returned 0 (Some (StoreError "zcount")), run.1.2,
        run.2 ++ [CZCount "hits:ts:101" 100 105]).
Proof.
  intros ts s run. split; [vm_compute; reflexivity|].
  apply (Range_query_failure ts (UnixTime 100 0) (UnixTime 105 0) 1 2
           s run.1.2 run.1.2 (UnixTime 101 0) 3 0 run.2
           (StoreError "zcount")).
  - reflexivity.
  - vm_compute. reflexivity.
  - vm_compute. reflexivity.
Defined.

(** ** Keys and buckets *)

Lemma append_assoc (a b c : string) : (a +:+ b) +:+ c = a +:+ b +:+ c.
Proof.
  induction a as [|x a IH]; [reflexivity|].
  change (String x ((a +:+ b) +:+ c) = String x (a +:+ b +:+ c)).
  f_equal. exact IH.
Qed.

Lemma Truncate_multiple (t : Time) (d : Duration) :
  0 < d -> Truncate t d = d * (t / d).
Proof.
  intros Hd. unfold Truncate.
  destruct (Z.leb_spec d 0); [lia|].
  pose proof (Z.div_mod t d). lia.
Qed.

(** The truncated instant starts the bucket that holds [t]. *)
Lemma Truncate_bounds (t : Time) (d : Duration) :
  0 < d -> Truncate t d <= t < Truncate t d + d.
Proof.
  intros Hd. unfold Truncate.
  destruct (Z.leb_spec d 0); [lia|].
  pose proof (Z.mod_pos_bound t d Hd). lia.
Qed.

Lemma Truncate_aligned (t : Time) (d : Duration) :
  0 < d -> t mod d = 0 -> Truncate t d = t.
Proof.
  intros Hd Hm. unfold Truncate.
  destruct (Z.leb_spec d 0); lia.
Qed.

Lemma Truncate_shift (t : Time) (d : Duration) (k : Z) :
  0 < d -> Truncate (t + k * d) d = Truncate t d + k * d.
Proof.
  intros Hd. rewrite !Truncate_multiple by lia.
  rewrite Z.div_add by lia. lia.
Qed.

Lemma Unix_mono (t u : Time) : t <= u -> Unix t <= Unix u.
Proof.
  intros Hle. unfold Unix.
  pose proof (Z.div_le_mono t u Second). unfold Second in *. lia.
Qed.

Lemma Unix_UnixTime (sec nsec : Z) :
  0 <= nsec < Second -> Unix (UnixTime sec nsec) = sec.
Proof.
  intros Hn. unfold Unix, UnixTime.
  rewrite Z.div_add_l by (unfold Second; lia).
  rewrite Z.div_small by lia. lia.
Qed.

(** For a width of [n] whole seconds that divides the distance between
    the zero time and the Unix epoch, truncation agrees with rounding the
    Unix time down to a multiple of [n]. *)
Lemma bucketEpochSeconds_whole_seconds (ts : TimeSeries) (t : Time) (n : Z) :
  0 < n ->
  timestep ts = n * Second ->
  (n | unixToInternal) ->
  bucketEpochSeconds ts t = Unix t / n * n.
Proof.
  intros Hn Hw [k Hk]. unfold bucketEpochSeconds, Unix.
  rewrite Hw, Truncate_multiple by (unfold Second; lia).
  replace (n * Second * (t / (n * Second)))
    with ((n * (t / (n * Second))) * Second) by lia.
  rewrite Z.div_mul by (unfold Second; lia).
  rewrite (Z.mul_comm n Second), <- Z.div_div by (unfold Second; lia).
  rewrite Hk.
  replace (t / Second - k * n) with (t / Second + (- k) * n) by lia.
  rewrite Z.div_add by lia. lia.
Qed.

Lemma makeKey_counter (nm : string) (w ttl0 : Duration) (t : Time) :
  let ts := NewTimeSeries nm w ttl0 in
  makeKey ts (counterKey ts) t
  = nm +:+ ":counter:" +:+ pretty (bucketEpochSeconds ts t).
Proof.
  cbn. unfold makeKey, bucketEpochSeconds. cbn.
  rewrite append_assoc. reflexivity.
Qed.

Lemma makeKey_series (nm : string) (w ttl0 : Duration) (t : Time) :
  let ts := NewTimeSeries nm w ttl0 in
  makeKey ts (seriesKey ts) t
  = nm +:+ ":ts:" +:+ pretty (bucketEpochSeconds ts t).
Proof.
  cbn. unfold makeKey, bucketEpochSeconds. cbn.
  rewrite append_assoc. reflexivity.
Qed.

Ltac solve_names :=
  repeat first
    [ apply List.Forall_nil
    | apply List.Forall_cons; [cbn; eauto |] ].

(** Every request of [IncreaseAtTime] goes to one of the two keys that
    [makeKey] derives from the instant, and every member added is named
    by [memberName]. *)
Lemma IncreaseAtTime_names_bucket {St : Type} `{Redis St}
    (ts : TimeSeries) (amount : Z) (t : Time) (s : St) :
  Forall (names_bucket (makeKey ts (counterKey ts) t)
            (makeKey ts (seriesKey ts) t) (memberName ts))
    (IncreaseAtTime ts amount t s).2.
Proof.
  unfold IncreaseAtTime. generalize (Z.to_nat amount) as n.
  intros n. revert s. induction n as [|n IH]; intros s.
  - constructor.
  - rewrite IncreaseAtTime_loop_S.
    destruct (IncreaseAtTime_body ts t s) as [[r sb] trb] eqn:Eb.
    assert (Hb : Forall (names_bucket (makeKey ts (counterKey ts) t)
                          (makeKey ts (seriesKey ts) t) (memberName ts)) trb).
    { revert Eb. unfold IncreaseAtTime_body. unfold_calls.
      destruct (Incr _ s) as [[id [e|]] s2];
        destruct (Expire _ _ s2) as [r3 s3].
      - intros [= <- <- <-]. solve_names.
      - destruct (ZAdd _ _ _ s3) as [[e|] s4].
        + intros [= <- <- <-]. solve_names.
        + destruct (Expire _ _ s4) as [r5 s5].
          intros [= <- <- <-]. solve_names. }
    destruct r as [e|]; [exact Hb|].
    specialize (IH sb).
    destruct (IncreaseAtTime_loop ts t n sb) as [[r' s'] tr'].
    cbn in *. apply Forall_app. split; assumption.
Qed.

(** The three ways one iteration can go, with the stores in between. *)
Lemma body_shape {St : Type} `{Redis St}
    (ts : TimeSeries) (t : Time) (s : St) :
  let ck := makeKey ts (counterKey ts) t in
  let sk := makeKey ts (seriesKey ts) t in
  let secs := ttlSeconds ts in
  let score := float64_of_int (Unix t) in
  let id := (Incr ck s).1.1 in
  let s3 := (Expire ck secs (Incr ck s).2).2 in
  let added := ZAdd sk score (memberName ts id) s3 in
  IncreaseAtTime_body ts t s
  = match (Incr ck s).1.2 with
    | Some e => (Some e, s3, [CIncr ck; CExpire ck secs])
    | None =>
        match added.1 with
        | Some e =>
            (Some e, added.2,
             [CIncr ck; CExpire ck secs; CZAdd sk score (memberName ts id)])
        | None =>
            (None, (Expire sk secs added.2).2,
             [CIncr ck; CExpire ck secs; CZAdd sk score (memberName ts id);
              CExpire sk secs])
        end
    end.
Proof.
  cbn zeta. unfold IncreaseAtTime_body. unfold_calls.
  destruct (Incr _ s) as [[id [e|]] s2]; cbn [fst snd];
    destruct (Expire _ _ s2) as [r3 s3]; cbn [fst snd]; [reflexivity|].
  destruct (ZAdd _ _ _ s3) as [[e|] s4]; cbn [fst snd]; [reflexivity|].
  destruct (Expire _ _ s4) as [r5 s5]. reflexivity.
Qed.

(** Every member that [IncreaseAtTime] adds is named after the value
    that the increment of its unit returned. *)
Lemma IncreaseAtTime_members_follow_counter {St : Type} `{Redis St}
    (ts : TimeSeries) (amount last : Z) (t : Time) (s : St) :
  members_follow_counter (name ts) last s (IncreaseAtTime ts amount t s).2.
Proof.
  unfold IncreaseAtTime. generalize (Z.to_nat amount) as n.
  intros n. revert last s. induction n as [|n IH]; intros last s.
  - exact I.
  - rewrite IncreaseAtTime_loop_S, body_shape.
    destruct (Incr (makeKey ts (counterKey ts) t) s).1.2 as [e|].
    + cbn. exact I.
    + destruct (ZAdd _ _ _ _).1 as [e|].
      * cbn. split; [reflexivity|exact I].
      * match goal with
        | |- context [IncreaseAtTime_loop ts t n ?sb] =>
            specialize (IH (Incr (makeKey ts (counterKey ts) t) s).1.1 sb);
            destruct (IncreaseAtTime_loop ts t n sb) as [[r' s'] tr']
        end.
        cbn in *. split; [reflexivity|exact IH].
Qed.

(** C2, as the specification states it, fails: with a width of 7 seconds
    the instant at Unix time 10 is written under [hits:counter:10] and
    [hits:ts:10], while rounding the Unix time down to a multiple of 7
    gives 7. *)
Lemma key_naming_counterexample :
  let ts := NewTimeSeries "hits" (7 * Second) (60 * Second) in
  let t := UnixTime 10 0 in
  spec_bucketEpochSeconds ts t = 7
  /\ makeKey ts (counterKey ts) t = "hits:counter:10"
  /\ makeKey ts (seriesKey ts) t = "hits:ts:10"
  /\ makeKey ts (counterKey ts) t
     <> "hits" +:+ ":counter:" +:+ pretty (spec_bucketEpochSeconds ts t)
  /\ (IncreaseAtTime ts 1 t empty_store).2
     = [CIncr "hits:counter:10"; CExpire "hits:counter:10" 60;
        CZAdd "hits:ts:10" 10 "hits:1"; CExpire "hits:ts:10" 60].
Proof.
  vm_compute. repeat split; discriminate.
Qed.

(** C2, amended.  For every base name, bucket width and instant, the
    counter key is [<name>:counter:<b>], the series key is [<name>:ts:<b>]
    and a member is named [<name>:<id>], [id] being the value that the
    increment of its unit returned, where [b] is the Unix time in seconds
    of the instant truncated down to a multiple of the width counted from
    Go's zero time; [IncreaseAtTime] sends its requests to these keys and
    adds members under that name only.  When the width is [n] whole
    seconds, [n] positive and dividing 62135596800 (the seconds between
    the zero time and the Unix epoch; every divisor of a day does), [b]
    is the Unix time of the instant rounded down to a multiple of [n], as
    the specification has it. *)
Theorem key_naming (nm : string) (w ttl0 : Duration) (t : Time) :
  let ts := NewTimeSeries nm w ttl0 in
  let b := pretty (Unix (Truncate t w)) in
  makeKey ts (counterKey ts) t = nm +:+ ":counter:" +:+ b
  /\ makeKey ts (seriesKey ts) t = nm +:+ ":ts:" +:+ b
  /\ (forall id, memberName ts id = nm +:+ ":" +:+ pretty id)
  /\ (forall (St : Type) (R : Redis St) (amount : Z) (s : St),
        Forall (names_bucket (nm +:+ ":counter:" +:+ b) (nm +:+ ":ts:" +:+ b)
                  (fun id => nm +:+ ":" +:+ pretty id))
          (IncreaseAtTime ts amount t s).2)
  /\ (forall (St : Type) (R : Redis St) (amount last : Z) (s : St),
        members_follow_counter nm last s (IncreaseAtTime ts amount t s).2)
  /\ (forall n : Z,
        0 < n -> w = n * Second -> (n | unixToInternal) ->
        Unix (Truncate t w) = spec_bucketEpochSeconds ts t
        /\ spec_bucketEpochSeconds ts t = Unix t / n * n).
Proof.
  intros ts b.
  assert (Hck : makeKey ts (counterKey ts) t = nm +:+ ":counter:" +:+ b)
    by apply makeKey_counter.
  assert (Hsk : makeKey ts (seriesKey ts) t = nm +:+ ":ts:" +:+ b)
    by apply makeKey_series.
  split; [exact Hck|]. split; [exact Hsk|]. split; [reflexivity|].
  split; [|split].
  - intros St R amount s. rewrite <- Hck, <- Hsk.
    apply (IncreaseAtTime_names_bucket ts amount t s).
  - intros St R amount last s.
    apply (IncreaseAtTime_members_follow_counter ts amount last t s).
  - intros n Hn Hw Hdiv.
    assert (Hs : spec_bucketEpochSeconds ts t = Unix t / n * n).
    { unfold spec_bucketEpochSeconds. subst ts.
      unfold NewTimeSeries. cbn [timestep]. rewrite Hw.
      rewrite Z.div_mul by (unfold Second; lia). reflexivity. }
    split; [|exact Hs]. rewrite Hs.
    apply (bucketEpochSeconds_whole_seconds ts t n Hn Hw Hdiv).
Qed.

Lemma key_naming_witness :
  let ts := NewTimeSeries "hits" (60 * Second) (3600 * Second) in
  let t := UnixTime 130 5 in
  let s := (IncreaseAtTime ts 4 t empty_store).1.2 in
  (makeKey ts (counterKey ts) t = "hits:counter:120"
   /\ makeKey ts (seriesKey ts) t = "hits:ts:120"
   /\ members_follow_counter "hits" 0 s (IncreaseAtTime ts 2 t s).2
   /\ Unix (Truncate t (timestep ts)) = spec_bucketEpochSeconds ts t
   /\ spec_bucketEpochSeconds ts t = Unix t / 60 * 60)
  /\ (IncreaseAtTime ts 2 t s).2
     = [CIncr "hits:counter:120"; CExpire "hits:counter:120" 3600;
        CZAdd "hits:ts:120" 130 "hits:5"; CExpire "hits:ts:120" 3600;
        CIncr "hits:counter:120"; CExpire "hits:counter:120" 3600;
        CZAdd "hits:ts:120" 130 "hits:6"; CExpire "hits:ts:120" 3600].
Proof.
  intros ts t s. split.
  - destruct (key_naming "hits" (60 * Second) (3600 * Second) t)
      as (Hck & Hsk & _ & _ & Hmem & Hspec).
    split; [exact Hck|]. split; [exact Hsk|].
    split; [exact (Hmem MemStore _ 2 0 s)|].
    apply (Hspec 60).
    + lia.
    + reflexivity.
    + exists 1035593280. reflexivity.
  - vm_compute. reflexivity.
Defined.

(** ** Conversion of integers to [float64] *)

(** Integers of magnitude up to [2^53] convert exactly. *)
Lemma float64_of_int_exact (n : Z) :
  - 2 ^ 53 <= n <= 2 ^ 53 -> float64_of_int n = n.
Proof.
  intros Hn. unfold float64_of_int, round53.
  destruct (Z.ltb_spec n 0).
  - destruct (Z.ltb_spec (- n) (2 ^ 53)); [lia|].
    replace n with (- 2 ^ 53) by lia. reflexivity.
  - destruct (Z.ltb_spec n (2 ^ 53)); [lia|].
    replace n with (2 ^ 53) by lia. reflexivity.
Qed.

(** Shape of a number of 54 bits or more: its unit in the last place [u]
    and its 53-bit significand [q]. *)
Lemma round53_significand (a : Z) :
  2 ^ 53 <= a ->
  let u := 2 ^ (Z.log2 a - 52) in
  2 <= u /\ 2 ^ 52 <= a / u < 2 ^ 53 /\ 0 <= a mod u < u
  /\ a = a / u * u + a mod u.
Proof.
  intros Ha u.
  assert (Hpos : 0 < a) by lia.
  destruct (Z.log2_spec a Hpos) as [Hlo Hhi].
  assert (HL : 53 <= Z.log2 a).
  { apply Z.log2_le_pow2; lia. }
  assert (Hu : 2 ^ Z.log2 a = 2 ^ 52 * u).
  { subst u. rewrite <- Z.pow_add_r by lia. f_equal. lia. }
  assert (Hu2 : 2 <= u).
  { subst u. change 2 with (2 ^ 1) at 1. apply Z.pow_le_mono_r; lia. }
  assert (HS : 2 ^ Z.succ (Z.log2 a) = 2 ^ 53 * u).
  { rewrite Z.pow_succ_r by lia. rewrite Hu. lia. }
  repeat split.
  - exact Hu2.
  - apply Z.div_le_lower_bound; lia.
  - apply Z.div_lt_upper_bound; lia.
  - apply Z.mod_pos_bound; lia.
  - apply Z.mod_pos_bound; lia.
  - pose proof (Z.div_mod a u). lia.
Qed.

(** The rounded value lies between the two neighbours with a 53-bit
    significand. *)
Lemma round53_between (a : Z) :
  2 ^ 53 <= a ->
  let u := 2 ^ (Z.log2 a - 52) in
  a / u * u <= round53 a <= (a / u + 1) * u.
Proof.
  intros Ha u. destruct (round53_significand a Ha) as (Hu & Hq & Hr & Hdm).
  fold u in Hu, Hq, Hr, Hdm.
  unfold round53. fold u.
  destruct (Z.ltb_spec a (2 ^ 53)); [lia|].
  repeat match goal with
         | |- context [if ?b then _ else _] => destruct b
         end; lia.
Qed.

Lemma round53_mono (a b : Z) : 0 <= a <= b -> round53 a <= round53 b.
Proof.
  intros [Ha Hab].
  destruct (Z.lt_ge_cases b (2 ^ 53)) as [Hb|Hb].
  { unfold round53.
    destruct (Z.ltb_spec a (2 ^ 53)); destruct (Z.ltb_spec b (2 ^ 53)); lia. }
  pose proof (round53_significand b Hb) as (Hub & Hqb & Hrb & Hdmb).
  pose proof (round53_between b Hb) as Hbb. cbn zeta in *.
  set (ub := 2 ^ (Z.log2 b - 52)) in *.
  destruct (Z.lt_ge_cases a (2 ^ 53)) as [Ha53|Ha53].
  { assert (round53 a = a) as ->.
    { unfold round53. destruct (Z.ltb_spec a (2 ^ 53)); lia. }
    nia. }
  pose proof (round53_significand a Ha53) as (Hua & Hqa & Hra & Hdma).
  pose proof (round53_between a Ha53) as Hba. cbn zeta in *.
  set (ua := 2 ^ (Z.log2 a - 52)) in *.
  assert (HL : Z.log2 a <= Z.log2 b) by (apply Z.log2_le_mono; lia).
  destruct (Z.eq_dec (Z.log2 a) (Z.log2 b)) as [HLe|HLne].
  - assert (Hu : ua = ub) by (subst ua ub; rewrite HLe; reflexivity).
    rewrite Hu in *. clear Hu.
    assert (Hq : a / ub <= b / ub) by (apply Z.div_le_mono; lia).
    destruct (Z.eq_dec (a / ub) (b / ub)) as [Hqe|Hqne].
    + assert (Hr : a mod ub <= b mod ub) by nia.
      unfold round53. fold ua ub.
      assert (ua = ub) as -> by (subst ua ub; rewrite HLe; reflexivity).
      destruct (Z.ltb_spec a (2 ^ 53)); [lia|].
      destruct (Z.ltb_spec b (2 ^ 53)); [lia|].
      rewrite Hqe.
      destruct (Z.ltb_spec (2 * (a mod ub)) ub);
        destruct (Z.ltb_spec (2 * (b mod ub)) ub);
        destruct (Z.ltb_spec ub (2 * (a mod ub)));
        destruct (Z.ltb_spec ub (2 * (b mod ub)));
        destruct (Z.even (b / ub)); nia.
    + assert ((a / ub + 1) * ub <= b / ub * ub) by nia. lia.
  - assert (Hu : 2 * ua <= ub).
    { subst ua ub.
      replace (Z.log2 b - 52) with (Z.succ (Z.log2 a - 52) + (Z.log2 b - Z.log2 a - 1)) by lia.
      assert (53 <= Z.log2 a) by (apply Z.log2_le_pow2; lia).
      rewrite Z.pow_add_r, Z.pow_succ_r by lia.
      assert (1 <= 2 ^ (Z.log2 b - Z.log2 a - 1))
        by (apply (Z.pow_le_mono_r 2 0); lia).
      assert (0 < 2 ^ (Z.log2 a - 52)) by (apply Z.pow_pos_nonneg; lia).
      nia. }
    nia.
Qed.

Lemma round53_nonneg (a : Z) : 0 <= a -> 0 <= round53 a.
Proof.
  intros Ha. change 0 with (round53 0) at 1. apply round53_mono. lia.
Qed.

(** The conversion preserves order: scores of later instants are not
    smaller. *)
Lemma float64_of_int_mono (a b : Z) :
  a <= b -> float64_of_int a <= float64_of_int b.
Proof.
  intros Hab. unfold float64_of_int.
  destruct (Z.ltb_spec a 0); destruct (Z.ltb_spec b 0); try lia.
  - assert (round53 (- b) <= round53 (- a)) by (apply round53_mono; lia). lia.
  - assert (0 <= round53 (- a)) by (apply round53_nonneg; lia).
    assert (0 <= round53 b) by (apply round53_nonneg; lia). lia.
  - apply round53_mono. lia.
Qed.

(** Agreement with the IEEE 754 conversion of the Standard Library on
    numbers around the first inexact integers and at the ends of the
    [int] range. *)
Example float64_of_int_binary64 :
  List.map float64_of_int
    [0; 10; -7; 2 ^ 53; 2 ^ 53 + 1; 2 ^ 53 + 2; 2 ^ 53 + 3; - (2 ^ 53 + 1);
     2 ^ 60 + 12345678901; int_max; int_min]
  = List.map (fun n => int_of_binary64 (binary64_of_int n))
    [0; 10; -7; 2 ^ 53; 2 ^ 53 + 1; 2 ^ 53 + 2; 2 ^ 53 + 3; - (2 ^ 53 + 1);
     2 ^ 60 + 12345678901; int_max; int_min].
Proof. vm_compute. reflexivity. Qed.

(** [int(ttl.Seconds())] drops the fraction of a second, except where
    the sum of the two floats rounds up to the next whole number. *)
Example ttlSeconds_values :
  List.map (fun d => ttlSeconds (NewTimeSeries "hits" Second d))
    [0; 999 * Millisecond; 60 * Second; 1500 * Millisecond;
     8999999999999999999]
  = [0; 0; 60; 1; 9000000000].
Proof. vm_compute. reflexivity. Qed.

(** ** Recording into the in-memory store *)

Lemma memberName_inj (ts : TimeSeries) (a b : Z) :
  memberName ts a = memberName ts b -> a = b.
Proof.
  unfold memberName. intros Heq.
  apply (inj (String.app (name ts))) in Heq.
  apply (inj (String.app ":")) in Heq.
  apply (inj pretty) in Heq. exact Heq.
Qed.

Lemma makeKey_inj (ts : TimeSeries) (prefix : string) (t u : Time) :
  makeKey ts prefix t = makeKey ts prefix u ->
  bucketEpochSeconds ts t = bucketEpochSeconds ts u.
Proof.
  unfold makeKey, bucketEpochSeconds. intros Heq.
  apply (inj (String.app prefix)) in Heq.
  apply (inj (String.app ":")) in Heq.
  apply (inj pretty) in Heq. exact Heq.
Qed.

Lemma sorted_set_absent (s : MemStore) (key : string) :
  series s !! key = None -> sorted_set s key = ∅.
Proof. unfold sorted_set. intros ->. reflexivity. Qed.

Lemma count_in_range_empty (lo hi : Z) :
  count_in_range (∅ : gmap string float64) lo hi = 0.
Proof.
  unfold count_in_range. rewrite map_filter_empty, map_size_empty.
  reflexivity.
Qed.

(** A new member with a score inside the bounds adds one to the count. *)
Lemma count_in_range_insert (zs : gmap string float64) (m : string)
    (sc : float64) (lo hi : Z) :
  zs !! m = None ->
  float64_of_int lo <= sc <= float64_of_int hi ->
  count_in_range (<[m := sc]> zs) lo hi = count_in_range zs lo hi + 1.
Proof.
  intros Hnew Hin. unfold count_in_range.
  rewrite map_filter_insert_True by exact Hin.
  rewrite map_size_insert_None.
  - lia.
  - apply map_lookup_filter_None. left. exact Hnew.
Qed.

Lemma count_in_range_nonneg (zs : gmap string float64) (lo hi : Z) :
  0 <= count_in_range zs lo hi.
Proof. unfold count_in_range. lia. Qed.

Section MemRecording.
Variable ts : TimeSeries.
Variable t : Time.

Let ck : string := makeKey ts (counterKey ts) t.
Let sk : string := makeKey ts (seriesKey ts) t.
Let secs : Z := ttlSeconds ts.
Let score : float64 := float64_of_int (Unix t).

(** One iteration on the in-memory store: it never fails, the counter
    moves to [id] and the member named after [id] is added. *)
Lemma mem_body (s : MemStore) :
  let id := counter_value s ck + 1 in
  IncreaseAtTime_body ts t s
  = (None,
     {| counters := <[ck := id]> (counters s);
        series := <[sk := <[memberName ts id := score]> (sorted_set s sk)]>
                    (series s);
        expiry := <[sk := secs]> (<[ck := secs]> (expiry s)) |},
     [CIncr ck; CExpire ck secs; CZAdd sk score (memberName ts id);
      CExpire sk secs]).
Proof.
  reflexivity.
Qed.

(** The effect of [n] iterations on the bucket's counter and series set,
    and on the other keys. *)
Lemma mem_loop (n : nat) (s : MemStore) (lo hi : Z) :
  ids_unused ts s ck sk ->
  float64_of_int lo <= score <= float64_of_int hi ->
  let run := IncreaseAtTime_loop ts t n s in
  run.1.1 = None
  /\ counter_value run.1.2 ck = counter_value s ck + Z.of_nat n
  /\ count_in_range (sorted_set run.1.2 sk) lo hi
     = count_in_range (sorted_set s sk) lo hi + Z.of_nat n
  /\ ids_unused ts run.1.2 ck sk
  /\ (forall key, key <> sk -> series run.1.2 !! key = series s !! key)
  /\ (forall key, key <> ck -> counters run.1.2 !! key = counters s !! key).
Proof.
  intros Hun Hin. revert s Hun. induction n as [|n IH]; intros s Hun.
  - cbn. repeat split; try reflexivity; try lia. exact Hun.
  - cbn zeta. rewrite IncreaseAtTime_loop_S, mem_body. cbn zeta.
    set (id := counter_value s ck + 1).
    set (s1 := {| counters := <[ck := id]> (counters s);
                  series := <[sk := <[memberName ts id := score]>
                                      (sorted_set s sk)]> (series s);
                  expiry := <[sk := secs]> (<[ck := secs]> (expiry s)) |}).
    assert (Hc1 : counter_value s1 ck = id).
    { unfold counter_value, s1. cbn. rewrite lookup_insert_eq. reflexivity. }
    assert (Hs1 : sorted_set s1 sk
                  = <[memberName ts id := score]> (sorted_set s sk)).
    { unfold sorted_set at 1, s1. cbn. rewrite lookup_insert_eq. reflexivity. }
    assert (Hun1 : ids_unused ts s1 ck sk).
    { intros i Hi. rewrite Hc1 in Hi. rewrite Hs1.
      rewrite lookup_insert_ne.
      - apply Hun. unfold id in Hi. lia.
      - intros Heq. apply memberName_inj in Heq. lia. }
    destruct (IH s1 Hun1) as (Hr & Hc & Hn & Hu & Hse & Hco).
    destruct (IncreaseAtTime_loop ts t n s1) as [[r s'] tr'].
    cbn in *. repeat split.
    + exact Hr.
    + rewrite Hc, Hc1. unfold id. lia.
    + rewrite Hn, Hs1, count_in_range_insert.
      * lia.
      * apply Hun. unfold id. lia.
      * exact Hin.
    + exact Hu.
    + intros key Hne. rewrite (Hse key Hne). unfold s1. cbn.
      apply lookup_insert_ne. congruence.
    + intros key Hne. rewrite (Hco key Hne). unfold s1. cbn.
      apply lookup_insert_ne. congruence.
Qed.
End MemRecording.

(** The same for a call of [IncreaseAtTime] with a non-negative amount. *)
Lemma mem_IncreaseAtTime (ts : TimeSeries) (t : Time) (amount : Z)
    (s : MemStore) (lo hi : Z) (run : option error * MemStore * list call) :
  let ck := makeKey ts (counterKey ts) t in
  let sk := makeKey ts (seriesKey ts) t in
  0 <= amount ->
  run = IncreaseAtTime ts amount t s ->
  ids_unused ts s ck sk ->
  float64_of_int lo <= float64_of_int (Unix t) <= float64_of_int hi ->
  run.1.1 = None
  /\ count_in_range (sorted_set run.1.2 sk) lo hi
     = count_in_range (sorted_set s sk) lo hi + amount
  /\ (forall key, key <> sk -> series run.1.2 !! key = series s !! key).
Proof.
  intros ck sk Ham -> Hun Hin.
  destruct (mem_loop ts t (Z.to_nat amount) s lo hi Hun Hin)
    as (Hr & _ & Hn & _ & Hse & _).
  unfold IncreaseAtTime. rewrite Z2Nat.id in Hn by exact Ham.
  repeat split; assumption.
Qed.

(** A bucket whose series key is absent has no member at all. *)
Lemma ids_unused_absent (ts : TimeSeries) (s : MemStore) (ck sk : string) :
  series s !! sk = None -> ids_unused ts s ck sk.
Proof.
  intros Habs id _. rewrite (sorted_set_absent _ _ Habs).
  apply lookup_empty.
Qed.

(** A count query on the in-memory store. *)
Lemma mem_ZCount_run (s : MemStore) (key : string) (lo hi : Z) :
  ZCount key lo hi s = ((count_in_range (sorted_set s key) lo hi, None), s).
Proof. reflexivity. Qed.

Lemma wrap_int_small (z : Z) : is_int z -> wrap_int z = z.
Proof.
  unfold is_int, int_min, int_max, wrap_int. intros Hz.
  rewrite Z.mod_small by lia. lia.
Qed.

Lemma Truncate_idem (t : Time) (d : Duration) :
  Truncate (Truncate t d) d = Truncate t d.
Proof.
  unfold Truncate. destruct (Z.leb_spec d 0); [reflexivity|].
  replace (t - t mod d) with (d * (t / d)) at 2
    by (pose proof (Z.div_mod t d); lia).
  rewrite Z.mul_comm, Z.mod_mul by lia. lia.
Qed.

Lemma makeKey_Truncate (ts : TimeSeries) (prefix : string) (t : Time) :
  makeKey ts prefix (Truncate t (timestep ts)) = makeKey ts prefix t.
Proof. unfold makeKey. rewrite Truncate_idem. reflexivity. Qed.

(** ** Counting what was recorded *)

(** C1.  On the in-memory store, with a positive bucket width and the
    series key of [t]'s bucket absent beforehand, recording [k >= 0]
    events at [t] succeeds, and [Range(t, t)] then returns [k] as a
    [float64] (which is [k] itself up to [2^53]) with no error.  Over any
    store, [Range] with [start = end_] sends exactly one count query, to
    the bucket that holds [start]. *)
Theorem count_conservation (ts : TimeSeries) (t : Time) (k : Z) (fuel : nat)
    (s : MemStore) :
  0 < timestep ts ->
  0 <= k <= int_max ->
  series s !! makeKey ts (seriesKey ts) t = None ->
  let run := IncreaseAtTime ts k t s in
  run.1.1 = None
  /\ Range ts (S fuel) t t run.1.2
     = (Returned (float64_of_int k) None, run.1.2,
        [CZCount (makeKey ts (seriesKey ts) t) (Unix t) (Unix t)])
  /\ (k <= 2 ^ 53 -> float64_of_int k = k)
  /\ (forall (St : Type) (R : Redis St) (s0 : St),
        (Range ts (S fuel) t t s0).2
        = [CZCount (makeKey ts (seriesKey ts) t) (Unix t) (Unix t)]).
Proof.
  intros Hw Hk Habs run.
  destruct (mem_loop ts t (Z.to_nat k) s (Unix t) (Unix t)
              (ids_unused_absent ts s _ _ Habs))
    as (Hr & _ & Hn & _); [lia|].
  fold (IncreaseAtTime ts k t s) in Hr, Hn. fold run in Hr, Hn.
  rewrite (sorted_set_absent _ _ Habs), count_in_range_empty in Hn.
  split; [exact Hr|]. split.
  - unfold Range, After. rewrite Z.ltb_irrefl.
    rewrite Range_loop_S. cbn zeta.
    rewrite makeKey_Truncate, mem_ZCount_run, Hn.
    pose proof (Truncate_bounds t (timestep ts) Hw) as Hb.
    unfold After, Add.
    destruct (Z.ltb_spec t (Truncate t (timestep ts) + timestep ts)); [|lia].
    unfold add_int. rewrite wrap_int_small.
    + repeat f_equal. lia.
    + unfold is_int, int_min, int_max in *. lia.
  - split.
    + intros Hle. apply float64_of_int_exact. lia.
    + intros St R s0. rewrite Range_point_one_query by exact Hw.
      rewrite makeKey_Truncate. reflexivity.
Qed.

Lemma count_conservation_witness :
  let ts := NewTimeSeries "hits" (60 * Second) (3600 * Second) in
  let t := UnixTime 130 500 in
  let run := IncreaseAtTime ts 4 t empty_store in
  run.1.1 = None
  /\ Range ts 1 t t run.1.2
     = (Returned (float64_of_int 4) None, run.1.2,
        [CZCount (makeKey ts (seriesKey ts) t) (Unix t) (Unix t)])
  /\ (4 <= 2 ^ 53 -> float64_of_int 4 = 4)
  /\ (forall (St : Type) (R : Redis St) (s0 : St),
        (Range ts 1 t t s0).2
        = [CZCount (makeKey ts (seriesKey ts) t) (Unix t) (Unix t)]).
Proof.
  apply (count_conservation
           (NewTimeSeries "hits" (60 * Second) (3600 * Second))
           (UnixTime 130 500) 4 0 empty_store).
  - reflexivity.
  - unfold int_max. lia.
  - reflexivity.
Defined.


(** A step of a second or more moves the Unix time forward. *)
Lemma Unix_step (t : Time) (d : Duration) :
  Second <= d -> Unix t + 1 <= Unix (t + d).
Proof.
  intros Hd. unfold Unix.
  assert (t / Second + 1 <= (t + d) / Second); [|lia].
  replace (t / Second + 1) with ((t + 1 * Second) / Second)
    by (rewrite Z.div_add by (unfold Second; lia); reflexivity).
  apply Z.div_le_mono; unfold Second in *; lia.
Qed.

Lemma sorted_set_eq (s s' : MemStore) (key : string) :
  series s' !! key = series s !! key -> sorted_set s' key = sorted_set s key.
Proof. unfold sorted_set. intros ->. reflexivity. Qed.




(** C4, as the specification states it, fails for widths below one
    second: with a width of 100 ms the three buckets starting at Unix time
    0 share the series key [hits:ts:0], each of the three queries counts
    all 10 events, and [Range] returns 30. *)
Lemma cross_bucket_summation_counterexample :
  let ts := NewTimeSeries "hits" (100 * Millisecond) (60 * Second) in
  let t0 := UnixTime 0 0 in
  let t1 := Add t0 (timestep ts) in
  let t2 := Add t1 (timestep ts) in
  let r0 := IncreaseAtTime ts 3 t0 empty_store in
  let r1 := IncreaseAtTime ts 5 t1 r0.1.2 in
  let r2 := IncreaseAtTime ts 2 t2 r1.1.2 in
  t0 mod timestep ts = 0
  /\ r0.1.1 = None /\ r1.1.1 = None /\ r2.1.1 = None
  /\ Range ts 3 t0 t2 r2.1.2
     = (Returned 30 None, r2.1.2,
        [CZCount "hits:ts:0" 0 0; CZCount "hits:ts:0" 0 0;
         CZCount "hits:ts:0" 0 0]).
Proof.
  vm_compute. repeat split; reflexivity.
Qed.

(** C4, amended.  On the in-memory store, for a bucket width of at least
    one second, a bucket-aligned instant [t0] and the series keys of the
    three buckets absent beforehand: after 3 events at [t0], 5 one width
    later and 2 two widths later, [Range] from [t0] to [t0] plus two
    widths sends one count query per bucket and returns 10. *)
Theorem cross_bucket_summation (ts : TimeSeries) (t0 : Time) (fuel : nat)
    (s : MemStore) :
  Second <= timestep ts ->
  t0 mod timestep ts = 0 ->
  let t1 := Add t0 (timestep ts) in
  let t2 := Add t1 (timestep ts) in
  series s !! makeKey ts (seriesKey ts) t0 = None ->
  series s !! makeKey ts (seriesKey ts) t1 = None ->
  series s !! makeKey ts (seriesKey ts) t2 = None ->
  let r0 := IncreaseAtTime ts 3 t0 s in
  let r1 := IncreaseAtTime ts 5 t1 r0.1.2 in
  let r2 := IncreaseAtTime ts 2 t2 r1.1.2 in
  r0.1.1 = None /\ r1.1.1 = None /\ r2.1.1 = None
  /\ Range ts (3 + fuel) t0 t2 r2.1.2
     = (Returned 10 None, r2.1.2,
        [CZCount (makeKey ts (seriesKey ts) t0) (Unix t0) (Unix t2);
         CZCount (makeKey ts (seriesKey ts) t1) (Unix t0) (Unix t2);
         CZCount (makeKey ts (seriesKey ts) t2) (Unix t0) (Unix t2)]).
Proof.
  intros Hw Hal t1 t2 Habs0 Habs1 Habs2 r0 r1 r2.
  assert (Hpos : 0 < timestep ts) by (unfold Second in Hw; lia).
  set (w := timestep ts) in *.
  set (sk0 := makeKey ts (seriesKey ts) t0) in *.
  set (sk1 := makeKey ts (seriesKey ts) t1) in *.
  set (sk2 := makeKey ts (seriesKey ts) t2) in *.
  (* The three instants start three buckets with distinct keys. *)
  assert (HT0 : Truncate t0 w = t0) by (apply Truncate_aligned; assumption).
  assert (HT1 : Truncate t1 w = t1).
  { unfold t1, Add. replace (t0 + w) with (t0 + 1 * w) by lia.
    rewrite Truncate_shift, HT0 by lia. reflexivity. }
  assert (HT2 : Truncate t2 w = t2).
  { unfold t2, Add. replace (t1 + w) with (t1 + 1 * w) by lia.
    rewrite Truncate_shift, HT1 by lia. reflexivity. }
  pose proof (Unix_step t0 w Hw) as Hu01. fold (Add t0 w) in Hu01.
  pose proof (Unix_step t1 w Hw) as Hu12. fold (Add t1 w) in Hu12.
  fold t1 in Hu01. fold t2 in Hu12.
  assert (Hne01 : sk1 <> sk0).
  { intros Heq. apply makeKey_inj in Heq. unfold bucketEpochSeconds in Heq.
    fold w in Heq. rewrite HT0, HT1 in Heq. lia. }
  assert (Hne12 : sk2 <> sk1).
  { intros Heq. apply makeKey_inj in Heq. unfold bucketEpochSeconds in Heq.
    fold w in Heq. rewrite HT1, HT2 in Heq. lia. }
  assert (Hne02 : sk2 <> sk0).
  { intros Heq. apply makeKey_inj in Heq. unfold bucketEpochSeconds in Heq.
    fold w in Heq. rewrite HT0, HT2 in Heq. lia. }
  (* Every score lies within the bounds of the query. *)
  assert (Hin : forall u, t0 <= u <= t2 ->
                  float64_of_int (Unix t0) <= float64_of_int (Unix u)
                  <= float64_of_int (Unix t2)).
  { intros u Hu. split; apply float64_of_int_mono, Unix_mono; lia. }
  assert (Ht01 : t0 <= t1 <= t2) by (unfold t2, t1, Add; lia).
  (* The three recordings. *)
  destruct (mem_IncreaseAtTime ts t0 3 s (Unix t0) (Unix t2) r0
              ltac:(lia) eq_refl
              (ids_unused_absent ts s _ _ Habs0) (Hin t0 ltac:(lia)))
    as (Hr0 & Hn0 & Hse0).
  clearbody r0. fold sk0 in Hn0, Hse0.
  rewrite (sorted_set_absent _ _ Habs0), count_in_range_empty in Hn0.
  assert (Habs1' : series r0.1.2 !! sk1 = None)
    by (rewrite Hse0 by exact Hne01; exact Habs1).
  assert (Habs2' : series r0.1.2 !! sk2 = None)
    by (rewrite Hse0 by exact Hne02; exact Habs2).
  destruct (mem_IncreaseAtTime ts t1 5 r0.1.2 (Unix t0) (Unix t2) r1
              ltac:(lia) eq_refl
              (ids_unused_absent ts r0.1.2 _ _ Habs1') (Hin t1 ltac:(lia)))
    as (Hr1 & Hn1 & Hse1).
  clearbody r1. fold sk1 in Hn1, Hse1.
  rewrite (sorted_set_absent _ _ Habs1'), count_in_range_empty in Hn1.
  assert (Habs2'' : series r1.1.2 !! sk2 = None)
    by (rewrite Hse1 by exact Hne12; exact Habs2').
  destruct (mem_IncreaseAtTime ts t2 2 r1.1.2 (Unix t0) (Unix t2) r2
              ltac:(lia) eq_refl
              (ids_unused_absent ts r1.1.2 _ _ Habs2'') (Hin t2 ltac:(lia)))
    as (Hr2 & Hn2 & Hse2).
  clearbody r2. fold sk2 in Hn2, Hse2.
  rewrite (sorted_set_absent _ _ Habs2''), count_in_range_empty in Hn2.
  (* What each bucket holds in the final store. *)
  assert (Hc0 : count_in_range (sorted_set r2.1.2 sk0) (Unix t0) (Unix t2) = 3).
  { rewrite (sorted_set_eq r1.1.2 r2.1.2 sk0)
      by (apply Hse2; congruence).
    rewrite (sorted_set_eq r0.1.2 r1.1.2 sk0)
      by (apply Hse1; congruence).
    rewrite Hn0. reflexivity. }
  assert (Hc1 : count_in_range (sorted_set r2.1.2 sk1) (Unix t0) (Unix t2) = 5).
  { rewrite (sorted_set_eq r1.1.2 r2.1.2 sk1)
      by (apply Hse2; congruence).
    rewrite Hn1. reflexivity. }
  assert (Hc2 : count_in_range (sorted_set r2.1.2 sk2) (Unix t0) (Unix t2) = 2).
  { rewrite Hn2. reflexivity. }
  split; [exact Hr0|]. split; [exact Hr1|]. split; [exact Hr2|].
  unfold Range, After.
  destruct (Z.ltb_spec t2 t0); [lia|].
  fold w. rewrite HT0. cbn [Nat.add].
  rewrite Range_loop_S. cbn zeta. fold sk0 w.
  rewrite mem_ZCount_run, Hc0. fold t1.
  unfold After at 1. destruct (Z.ltb_spec t2 t1); [lia|].
  rewrite Range_loop_S. cbn zeta. fold sk1 w.
  rewrite mem_ZCount_run, Hc1. fold t2.
  unfold After at 1. rewrite Z.ltb_irrefl.
  rewrite Range_loop_S. cbn zeta. fold sk2 w.
  rewrite mem_ZCount_run, Hc2.
  unfold After, Add. destruct (Z.ltb_spec t2 (t2 + w)); [|lia].
  replace (float64_of_int (add_int (add_int (add_int 0 3) 5) 2)) with 10
    by (vm_compute; reflexivity).
  reflexivity.
Qed.

Lemma cross_bucket_summation_witness :
  let ts := NewTimeSeries "hits" (60 * Second) (3600 * Second) in
  let t0 := UnixTime 120 0 in
  let t1 := UnixTime 180 0 in
  let t2 := UnixTime 240 0 in
  let r0 := IncreaseAtTime ts 3 t0 empty_store in
  let r1 := IncreaseAtTime ts 5 t1 r0.1.2 in
  let r2 := IncreaseAtTime ts 2 t2 r1.1.2 in
  r0.1.1 = None /\ r1.1.1 = None /\ r2.1.1 = None
  /\ Range ts 3 t0 t2 r2.1.2
     = (Returned 10 None, r2.1.2,
        [CZCount "hits:ts:120" 120 240; CZCount "hits:ts:180" 120 240;
         CZCount "hits:ts:240" 120 240]).
Proof.
  apply (cross_bucket_summation
           (NewTimeSeries "hits" (60 * Second) (3600 * Second))
           (UnixTime 120 0) 0 empty_store).
  - vm_compute. discriminate.
  - reflexivity.
  - reflexivity.
  - reflexivity.
  - reflexivity.
Defined.

(** ** The loop of [Range]: how long it runs and what it asks *)

Lemma bucket_queries_S (ts : TimeSeries) (start end_ c0 : Time) (n : nat) :
  bucket_queries ts start end_ c0 (S n)
  = CZCount (makeKey ts (seriesKey ts) c0) (Unix start) (Unix end_)
    :: bucket_queries ts start end_ (Add c0 (timestep ts)) n.
Proof.
  unfold bucket_queries. cbn [seq List.map].
  replace (c0 + Z.of_nat 0 * timestep ts) with c0 by lia.
  f_equal. rewrite <- seq_shift, List.map_map.
  apply List.map_ext. intros i. unfold Add.
  replace (c0 + timestep ts + Z.of_nat i * timestep ts)
    with (c0 + Z.of_nat (S i) * timestep ts) by lia.
  reflexivity.
Qed.

(** The requests of the loop are the count queries of consecutive
    buckets; there are no more of them than buckets up to [end_], and
    exactly that many when the loop returns without error. *)
Lemma Range_loop_queries {St : Type} `{Redis St}
    (ts : TimeSeries) (start end_ : Time) (fuel : nat) (c0 : Time) (n0 : Z)
    (s s' : St) (r : outcome) (tr : list call) :
  0 < timestep ts ->
  c0 <= end_ ->
  Range_loop ts start end_ fuel c0 n0 s = (r, s', tr) ->
  tr = bucket_queries ts start end_ c0 (length tr)
  /\ Z.of_nat (length tr) <= (end_ - c0) / timestep ts + 1
  /\ (forall total, r = Returned total None ->
        Z.of_nat (length tr) = (end_ - c0) / timestep ts + 1).
Proof.
  intros Hw. revert c0 n0 s tr.
  induction fuel as [|fuel IH]; intros c0 n0 s tr Hc.
  - cbn. unfold ret. intros [= <- <- <-]. cbn.
    pose proof (Z.div_pos (end_ - c0) (timestep ts)).
    repeat split; [lia | discriminate].
  - rewrite Range_loop_S. cbn zeta.
    assert (Hq0 : 0 <= (end_ - c0) / timestep ts)
      by (apply Z.div_pos; lia).
    destruct (ZCount _ (Unix start) (Unix end_) s) as [[count [e|]] sq].
    + intros [= <- <- <-]. cbn [length].
      rewrite bucket_queries_S. repeat split; [lia | discriminate].
    + destruct (After (Add c0 (timestep ts)) end_) eqn:EA.
      * intros [= <- <- <-]. cbn [length].
        rewrite bucket_queries_S. unfold After, Add in EA.
        apply Z.ltb_lt in EA.
        assert ((end_ - c0) / timestep ts = 0)
          by (apply Z.div_small; lia).
        repeat split; lia.
      * unfold After in EA. apply Z.ltb_ge in EA.
        destruct (Range_loop ts start end_ fuel (Add c0 (timestep ts))
                    (add_int n0 count) sq) as [[r' s2] tr2] eqn:E.
        intros [= <- <- <-].
        destruct (IH _ _ _ _ EA E) as (Htr & Hle & Heq).
        assert (Hdiv : (end_ - Add c0 (timestep ts)) / timestep ts
                       = (end_ - c0) / timestep ts - 1).
        { unfold Add.
          replace (end_ - (c0 + timestep ts))
            with ((end_ - c0) + (-1) * timestep ts) by lia.
          rewrite Z.div_add by lia. lia. }
        cbn [length]. rewrite bucket_queries_S, <- Htr.
        repeat split.
        -- lia.
        -- intros total Hr. specialize (Heq total Hr). lia.
Qed.

(** X1.  With a positive bucket width and [start] not after [end_],
    [Range] sends one count query per bucket, from the bucket of [start]
    onwards, each with the bounds [start.Unix()] and [end_.Unix()]; it
    never sends more queries than there are buckets up to [end_], and
    exactly one per bucket when it returns without error. *)
Theorem Range_queries {St : Type} `{Redis St}
    (ts : TimeSeries) (fuel : nat) (start end_ : Time)
    (s s' : St) (r : outcome) (tr : list call) :
  0 < timestep ts ->
  After start end_ = false ->
  Range ts fuel start end_ s = (r, s', tr) ->
  let first := Truncate start (timestep ts) in
  let buckets := (end_ - first) / timestep ts + 1 in
  tr = bucket_queries ts start end_ first (length tr)
  /\ Z.of_nat (length tr) <= buckets
  /\ (forall total, r = Returned total None ->
        Z.of_nat (length tr) = buckets).
Proof.
  intros Hw HA Hrun first buckets. unfold Range in Hrun. rewrite HA in Hrun.
  apply (Range_loop_queries ts start end_ fuel first 0 s s' r tr Hw);
    [|exact Hrun].
  unfold After in HA. apply Z.ltb_ge in HA.
  pose proof (Truncate_bounds start (timestep ts) Hw). subst first. lia.
Qed.

Lemma Range_queries_witness :
  let ts := NewTimeSeries "hits" (60 * Second) (3600 * Second) in
  let run := Range ts 9 (UnixTime 130 0) (UnixTime 250 0) empty_store in
  run.2 = bucket_queries ts (UnixTime 130 0) (UnixTime 250 0)
            (UnixTime 120 0) (length run.2)
  /\ Z.of_nat (length run.2) <= 3
  /\ (forall total, run.1.1 = Returned total None ->
        Z.of_nat (length run.2) = 3).
Proof.
  intros ts run.
  apply (Range_queries ts 9 (UnixTime 130 0) (UnixTime 250 0)
           empty_store run.1.2 run.1.1 run.2).
  - reflexivity.
  - reflexivity.
  - vm_compute. reflexivity.
Defined.

(** X2.  With a positive bucket width, [Range] returns whatever the
    store answers, within one iteration per bucket between [start] and
    [end_] and one more. *)
Theorem Range_terminates {St : Type} `{Redis St}
    (ts : TimeSeries) (fuel : nat) (start end_ : Time) (s : St) :
  0 < timestep ts ->
  (end_ - start) / timestep ts + 1 <= Z.of_nat fuel ->
  exists total err s1 tr1,
    Range ts (S fuel) start end_ s = (Returned total err, s1, tr1)
    /\ forall more : nat,
         Range ts (S fuel + more) start end_ s
         = (Returned total err, s1, tr1).
Proof.
  intros Hw Hf.
  destruct (Range_returns ts fuel start end_ s Hw Hf)
    as (total & err & s1 & tr1 & E).
  exists total, err, s1, tr1. split; [exact E|].
  intros more. unfold Range in *.
  destruct (After start end_); [exact E|].
  apply Range_loop_returned. exact E.
Qed.

Lemma Range_terminates_witness :
  exists total err s1 tr1,
    Range (NewTimeSeries "hits" (60 * Second) (3600 * Second)) 4
      (UnixTime 130 0) (UnixTime 250 0) empty_store
    = (Returned total err, s1, tr1)
    /\ forall more : nat,
         Range (NewTimeSeries "hits" (60 * Second) (3600 * Second))
           (4 + more) (UnixTime 130 0) (UnixTime 250 0) empty_store
         = (Returned total err, s1, tr1).
Proof.
  apply (Range_terminates
           (NewTimeSeries "hits" (60 * Second) (3600 * Second)) 3
           (UnixTime 130 0) (UnixTime 250 0) empty_store).
  - reflexivity.
  - vm_compute. discriminate.
Defined.

(** X3.  With a bucket width of zero or less, [start] not after [end_]
    and a store whose count queries do not fail, the loop of [Range] never
    reaches a [return]: after any number of iterations it is still
    running and has sent one query per iteration. *)
Theorem Range_diverges {St : Type} `{Redis St}
    (ts : TimeSeries) (fuel : nat) (start end_ : Time) (s : St) :
  timestep ts <= 0 ->
  After start end_ = false ->
  (forall key lo hi s0, (ZCount key lo hi s0).1.2 = None) ->
  exists cur tot s1 tr1,
    Range ts fuel start end_ s = (Running cur tot, s1, tr1)
    /\ length tr1 = fuel.
Proof.
  intros Hw HA Hok. unfold Range. rewrite HA.
  unfold After in HA. apply Z.ltb_ge in HA.
  assert (Hc : Truncate start (timestep ts) <= end_).
  { unfold Truncate. destruct (Z.leb_spec (timestep ts) 0); lia. }
  revert Hc. generalize (Truncate start (timestep ts)) as c0.
  generalize 0 as n0. revert s.
  induction fuel as [|fuel IH]; intros s n0 c0 Hc.
  - cbn. unfold ret. exists c0, n0, s, []. split; reflexivity.
  - rewrite Range_loop_S. cbn zeta.
    specialize (Hok (makeKey ts (seriesKey ts) c0) (Unix start) (Unix end_) s).
    destruct (ZCount _ (Unix start) (Unix end_) s) as [[count err] sq].
    cbn in Hok. subst err.
    unfold After at 1, Add at 1.
    destruct (Z.ltb_spec end_ (c0 + timestep ts)); [lia|].
    destruct (IH sq (add_int n0 count) (Add c0 (timestep ts)))
      as (cur & tot & s1 & tr1 & E & Hlen); [unfold Add; lia|].
    rewrite E. eexists cur, tot, s1, _. split; [reflexivity|].
    cbn. lia.
Qed.

Lemma Range_diverges_witness :
  exists cur tot s1 tr1,
    Range (NewTimeSeries "hits" 0 (3600 * Second)) 50
      (UnixTime 130 0) (UnixTime 250 0) empty_store
    = (Running cur tot, s1, tr1)
    /\ length tr1 = 50%nat.
Proof.
  apply (Range_diverges (NewTimeSeries "hits" 0 (3600 * Second)) 50
           (UnixTime 130 0) (UnixTime 250 0) empty_store).
  - cbn. lia.
  - reflexivity.
  - intros key lo hi s0. reflexivity.
Defined.

(** ** Keys of one time series *)

(** X4.  A counter key and a series key of the same time series are
    never the same string, whatever the two instants: the counters and
    the series sets do not meet in the store's key space. *)
Theorem counter_and_series_keys_differ (nm : string) (w ttl0 : Duration)
    (t t' : Time) :
  let ts := NewTimeSeries nm w ttl0 in
  makeKey ts (counterKey ts) t <> makeKey ts (seriesKey ts) t'.
Proof.
  intros ts Heq.
  pose proof (makeKey_counter nm w ttl0 t) as Hc.
  pose proof (makeKey_series nm w ttl0 t') as Hs.
  cbn zeta in Hc, Hs. fold ts in Hc, Hs. rewrite Hc, Hs in Heq.
  apply (inj (String.app nm)) in Heq.
  cbv [String.append] in Heq. discriminate Heq.
Qed.

(** X5.  For a bucket width of at least one second, two instants get the
    same key under a prefix exactly when they lie in the same bucket. *)
Theorem same_key_iff_same_bucket (ts : TimeSeries) (prefix : string)
    (t1 t2 : Time) :
  Second <= timestep ts ->
  makeKey ts prefix t1 = makeKey ts prefix t2
  <-> Truncate t1 (timestep ts) = Truncate t2 (timestep ts).
Proof.
  intros Hw. assert (Hpos : 0 < timestep ts) by (unfold Second in Hw; lia).
  split.
  - intros Heq. apply makeKey_inj in Heq. unfold bucketEpochSeconds in Heq.
    rewrite !Truncate_multiple in * by exact Hpos.
    set (w := timestep ts) in *.
    destruct (Z.lt_trichotomy (t1 / w) (t2 / w)) as [Hlt|[Heq'|Hgt]].
    + exfalso.
      pose proof (Unix_step (w * (t1 / w)) w Hw) as Hs.
      pose proof (Unix_mono (w * (t1 / w) + w) (w * (t2 / w))) as Hm.
      assert (w * (t1 / w) + w <= w * (t2 / w)) by nia. lia.
    + rewrite Heq'. reflexivity.
    + exfalso.
      pose proof (Unix_step (w * (t2 / w)) w Hw) as Hs.
      pose proof (Unix_mono (w * (t2 / w) + w) (w * (t1 / w))) as Hm.
      assert (w * (t2 / w) + w <= w * (t1 / w)) by nia. lia.
  - intros Heq. unfold makeKey. rewrite Heq. reflexivity.
Qed.

Lemma same_key_iff_same_bucket_witness :
  let ts := NewTimeSeries "hits" (60 * Second) (3600 * Second) in
  makeKey ts (seriesKey ts) (UnixTime 125 0)
  = makeKey ts (seriesKey ts) (UnixTime 170 0)
  <-> Truncate (UnixTime 125 0) (timestep ts)
      = Truncate (UnixTime 170 0) (timestep ts).
Proof.
  apply (same_key_iff_same_bucket
           (NewTimeSeries "hits" (60 * Second) (3600 * Second))).
  vm_compute. discriminate.
Defined.

(** ** Requests of [IncreaseAtTime] over any store *)

Lemma IncreaseAtTime_loop_error_app {St : Type} `{Redis St}
    (ts : TimeSeries) (t : Time) (n m : nat) (s s1 : St) (e : error)
    (tr1 : list call) :
  IncreaseAtTime_loop ts t n s = (Some e, s1, tr1) ->
  IncreaseAtTime_loop ts t (n + m) s = (Some e, s1, tr1).
Proof.
  revert s tr1. induction n as [|n IH]; intros s tr1.
  - cbn. unfold ret. discriminate.
  - cbn [Nat.add]. rewrite !IncreaseAtTime_loop_S.
    destruct (IncreaseAtTime_body ts t s) as [[[e'|] sb] trb];
      [tauto|].
    destruct (IncreaseAtTime_loop ts t n sb) as [[r' s'] tr'] eqn:E.
    intros [= -> -> <-]. rewrite (IH _ _ E). reflexivity.
Qed.

(** X6.  Recording [a + b] events in one call does what recording [a]
    and then [b] does: the same requests in the same order, the same final
    store and the same result; when the first [a] meet an error, the call
    ends there. *)
Theorem IncreaseAtTime_splits {St : Type} `{Redis St}
    (ts : TimeSeries) (a b : Z) (t : Time) (s : St) :
  0 <= a ->
  0 <= b ->
  IncreaseAtTime ts (a + b) t s
  = match IncreaseAtTime ts a t s with
    | (Some e, s1, tr1) => (Some e, s1, tr1)
    | (None, s1, tr1) =>
        let '(r, s2, tr2) := IncreaseAtTime ts b t s1 in
        (r, s2, tr1 ++ tr2)
    end.
Proof.
  intros Ha Hb. unfold IncreaseAtTime.
  rewrite Z2Nat.inj_add by lia.
  destruct (IncreaseAtTime_loop ts t (Z.to_nat a) s) as [[[e|] s1] tr1] eqn:E.
  - apply IncreaseAtTime_loop_error_app. exact E.
  - apply IncreaseAtTime_loop_app. exact E.
Qed.

Lemma IncreaseAtTime_splits_witness :
  let ts := NewTimeSeries "hits" (60 * Second) (3600 * Second) in
  let t := UnixTime 130 0 in
  let s := faulty (Some 3%nat) None None in
  IncreaseAtTime ts (2 + 4) t s
  = match IncreaseAtTime ts 2 t s with
    | (Some e, s1, tr1) => (Some e, s1, tr1)
    | (None, s1, tr1) =>
        let '(r, s2, tr2) := IncreaseAtTime ts 4 t s1 in
        (r, s2, tr1 ++ tr2)
    end.
Proof.
  intros ts t s. apply (IncreaseAtTime_splits ts 2 4 t s); lia.
Defined.

(** What one iteration sends, whatever the store answers. *)
Lemma body_requests {St : Type} `{Redis St}
    (ts : TimeSeries) (t : Time) (s s' : St) (r : option error)
    (tr : list call) :
  IncreaseAtTime_body ts t s = (r, s', tr) ->
  count_calls is_incr tr = 1%nat
  /\ (count_calls is_zadd tr <= 1)%nat
  /\ (count_calls is_expire tr
      <= count_calls is_incr tr + count_calls is_zadd tr)%nat
  /\ length tr
     = (count_calls is_incr tr + count_calls is_zadd tr
        + count_calls is_expire tr)%nat
  /\ (r = None ->
      count_calls is_zadd tr = 1%nat /\ count_calls is_expire tr = 2%nat).
Proof.
  unfold IncreaseAtTime_body. unfold_calls.
  destruct (Incr _ s) as [[id [e|]] s2];
    destruct (Expire _ _ s2) as [r3 s3].
  - intros [= <- <- <-]. cbn.
    split; [lia|]. split; [lia|]. split; [lia|]. split; [lia|]. discriminate.
  - destruct (ZAdd _ _ _ s3) as [[e|] s4].
    + intros [= <- <- <-]. cbn.
      split; [lia|]. split; [lia|]. split; [lia|]. split; [lia|].
      discriminate.
    + destruct (Expire _ _ s4) as [r5 s5].
      intros [= <- <- <-]. cbn.
      split; [lia|]. split; [lia|]. split; [lia|]. split; [lia|].
      intros _. split; lia.
Qed.

(** X7.  Whatever the store answers, [IncreaseAtTime] sends at most
    [amount] increments, never more series-set adds than increments, never
    more expiry refreshes than increments and adds together, and nothing
    else; when it returns no error it has sent exactly [amount]
    increments, [amount] adds and twice [amount] expiry refreshes. *)
Theorem IncreaseAtTime_requests {St : Type} `{Redis St}
    (ts : TimeSeries) (amount : Z) (t : Time) (s : St) :
  let run := IncreaseAtTime ts amount t s in
  let n := Z.to_nat amount in
  (count_calls is_incr run.2 <= n)%nat
  /\ (count_calls is_zadd run.2 <= count_calls is_incr run.2)%nat
  /\ (count_calls is_expire run.2
      <= count_calls is_incr run.2 + count_calls is_zadd run.2)%nat
  /\ length run.2
     = (count_calls is_incr run.2 + count_calls is_zadd run.2
        + count_calls is_expire run.2)%nat
  /\ (run.1.1 = None ->
      count_calls is_incr run.2 = n
      /\ count_calls is_zadd run.2 = n
      /\ count_calls is_expire run.2 = (2 * n)%nat).
Proof.
  unfold IncreaseAtTime. generalize (Z.to_nat amount) as n. cbn zeta.
  intros n. revert s. induction n as [|n IH]; intros s.
  - cbn. split; [lia|]. split; [lia|]. split; [lia|]. split; [lia|].
    intros _. split; [lia|]. split; lia.
  - rewrite IncreaseAtTime_loop_S.
    destruct (IncreaseAtTime_body ts t s) as [[r sb] trb] eqn:Eb.
    destruct (body_requests ts t _ _ _ _ Eb) as (Bi & Bz & Be & Bl & Bok).
    destruct r as [e|].
    + cbn [fst snd].
      split; [lia|]. split; [lia|]. split; [lia|]. split; [lia|].
      discriminate.
    + destruct (Bok eq_refl) as [Bz1 Be2].
      specialize (IH sb).
      destruct (IncreaseAtTime_loop ts t n sb) as [[r' s'] tr'].
      cbn [fst snd] in *.
      destruct IH as (Ii & Iz & Ie & Il & Iok).
      rewrite !count_calls_app, length_app.
      split; [lia|]. split; [lia|]. split; [lia|]. split; [lia|].
      intros Hr. destruct (Iok Hr) as (? & ? & ?). lia.
Qed.

(** X8.  When every increment and every series-set add succeeds,
    [IncreaseAtTime] returns no error, whether or not the expiry
    refreshes succeed: the result of [Expire] is never looked at. *)
Theorem IncreaseAtTime_ignores_expire_errors {St : Type} `{Redis St}
    (ts : TimeSeries) (amount : Z) (t : Time) (s : St) :
  (forall key s0, (Incr key s0).1.2 = None) ->
  (forall key score member s0, (ZAdd key score member s0).1 = None) ->
  (IncreaseAtTime ts amount t s).1.1 = None.
Proof.
  intros HI HZ. unfold IncreaseAtTime. generalize (Z.to_nat amount) as n.
  intros n. revert s. induction n as [|n IH]; intros s; [reflexivity|].
  rewrite IncreaseAtTime_loop_S.
  assert (Hb : (IncreaseAtTime_body ts t s).1.1 = None).
  { unfold IncreaseAtTime_body. unfold_calls.
    pose proof (HI (makeKey ts (counterKey ts) t) s) as Hi.
    destruct (Incr _ s) as [[id err] s2]. cbn in Hi. subst err.
    destruct (Expire _ _ s2) as [r3 s3].
    pose proof (HZ (makeKey ts (seriesKey ts) t)
                  (float64_of_int (Unix t)) (memberName ts id) s3) as Hz.
    destruct (ZAdd _ _ _ s3) as [err s4]. cbn in Hz. subst err.
    destruct (Expire _ _ s4) as [r5 s5]. reflexivity. }
  destruct (IncreaseAtTime_body ts t s) as [[r sb] trb].
  cbn in Hb. subst r. specialize (IH sb).
  destruct (IncreaseAtTime_loop ts t n sb) as [[r' s'] tr'].
  exact IH.
Qed.

Lemma IncreaseAtTime_ignores_expire_errors_witness :
  (IncreaseAtTime (NewTimeSeries "hits" (60 * Second) (3600 * Second)) 3
     (UnixTime 130 0) {| kept := empty_store |}).1.1 = None.
Proof.
  apply IncreaseAtTime_ignores_expire_errors.
  - intros key s0. reflexivity.
  - intros key score member s0. reflexivity.
Defined.

(** ** Recording and counting on the in-memory store *)

(** X9.  On the in-memory store, while no member of the bucket's series
    set is named after a counter value the counter has yet to reach,
    recording [k >= 0] events at [t] moves the bucket's counter up by [k],
    raises by [k] the count of every score range that holds [t]'s score,
    keeps that condition, and leaves the counters and series sets of all
    other keys as they were. *)
Theorem recording_adds_to_count (ts : TimeSeries) (t : Time) (k : Z)
    (s : MemStore) (lo hi : Z) :
  let ck := makeKey ts (counterKey ts) t in
  let sk := makeKey ts (seriesKey ts) t in
  0 <= k ->
  ids_unused ts s ck sk ->
  float64_of_int lo <= float64_of_int (Unix t) <= float64_of_int hi ->
  let run := IncreaseAtTime ts k t s in
  run.1.1 = None
  /\ counter_value run.1.2 ck = counter_value s ck + k
  /\ count_in_range (sorted_set run.1.2 sk) lo hi
     = count_in_range (sorted_set s sk) lo hi + k
  /\ ids_unused ts run.1.2 ck sk
  /\ (forall key, key <> sk -> series run.1.2 !! key = series s !! key)
  /\ (forall key, key <> ck -> counters run.1.2 !! key = counters s !! key).
Proof.
  intros ck sk Hk Hun Hin run.
  destruct (mem_loop ts t (Z.to_nat k) s lo hi Hun Hin)
    as (Hr & Hc & Hn & Hu & Hse & Hco).
  rewrite Z2Nat.id in Hc, Hn by exact Hk.
  unfold run, IncreaseAtTime.
  split; [exact Hr|]. split; [exact Hc|]. split; [exact Hn|].
  split; [exact Hu|]. split; [exact Hse|exact Hco].
Qed.

Lemma recording_adds_to_count_witness :
  let ts := NewTimeSeries "hits" (60 * Second) (3600 * Second) in
  let t := UnixTime 130 0 in
  let s := (IncreaseAtTime ts 2 (UnixTime 125 0) empty_store).1.2 in
  let run := IncreaseAtTime ts 3 t s in
  run.1.1 = None
  /\ counter_value run.1.2 "hits:counter:120"
     = counter_value s "hits:counter:120" + 3
  /\ count_in_range (sorted_set run.1.2 "hits:ts:120") 120 180
     = count_in_range (sorted_set s "hits:ts:120") 120 180 + 3.
Proof.
  intros ts t s run.
  destruct (recording_adds_to_count ts t 3 s 120 180)
    as (Hr & Hc & Hn & _).
  - lia.
  - intros id Hid.
    change (counter_value s (makeKey ts (counterKey ts) t)) with 2 in Hid.
    change (sorted_set s (makeKey ts (seriesKey ts) t))
      with (<["hits:2" := 125]> (<["hits:1" := 125]>
              (∅ : gmap string float64))).
    rewrite !lookup_insert_ne; [apply lookup_empty | |].
    + change "hits:1" with (memberName ts 1).
      intros Heq. apply memberName_inj in Heq. lia.
    + change "hits:2" with (memberName ts 2).
      intros Heq. apply memberName_inj in Heq. lia.
  - vm_compute. split; discriminate.
  - split; [exact Hr|]. split; [exact Hc|exact Hn].
Defined.

(** Writing over a member that is already counted does not change the
    count. *)
Lemma count_in_range_overwrite (zs : gmap string float64) (m : string)
    (old sc : float64) (lo hi : Z) :
  zs !! m = Some old ->
  float64_of_int lo <= old <= float64_of_int hi ->
  float64_of_int lo <= sc <= float64_of_int hi ->
  count_in_range (<[m := sc]> zs) lo hi = count_in_range zs lo hi.
Proof.
  intros Hold Hino Hin. unfold count_in_range.
  rewrite map_filter_insert_True by exact Hin.
  rewrite map_size_insert_Some; [reflexivity|].
  exists old. apply map_lookup_filter_Some. split; assumption.
Qed.

(** X10.  On the in-memory store, when the series set already holds the
    member named after the next counter value (the counter key was lost
    or fell behind, for instance by expiring before the series key),
    recording an event writes over that member: the series set keeps its
    size, the member takes the new score, and a range that held the old
    score and holds the new one counts no more events than before. *)
Theorem recording_overwrites_reused_id (ts : TimeSeries) (t : Time)
    (s : MemStore) (old : float64) (lo hi : Z) :
  let ck := makeKey ts (counterKey ts) t in
  let sk := makeKey ts (seriesKey ts) t in
  let m := memberName ts (counter_value s ck + 1) in
  sorted_set s sk !! m = Some old ->
  float64_of_int lo <= old <= float64_of_int hi ->
  float64_of_int lo <= float64_of_int (Unix t) <= float64_of_int hi ->
  let run := IncreaseAtTime ts 1 t s in
  run.1.1 = None
  /\ sorted_set run.1.2 sk !! m = Some (float64_of_int (Unix t))
  /\ size (sorted_set run.1.2 sk) = size (sorted_set s sk)
  /\ count_in_range (sorted_set run.1.2 sk) lo hi
     = count_in_range (sorted_set s sk) lo hi.
Proof.
  intros ck sk m Hold Hino Hin run.
  assert (Hrun : run
    = (None,
       {| counters := <[ck := counter_value s ck + 1]> (counters s);
          series := <[sk := <[m := float64_of_int (Unix t)]>
                              (sorted_set s sk)]> (series s);
          expiry := <[sk := ttlSeconds ts]>
                      (<[ck := ttlSeconds ts]> (expiry s)) |},
       [CIncr ck; CExpire ck (ttlSeconds ts);
        CZAdd sk (float64_of_int (Unix t)) m; CExpire sk (ttlSeconds ts)])).
  { unfold run, IncreaseAtTime.
    change (Z.to_nat 1) with 1%nat.
    rewrite IncreaseAtTime_loop_S, mem_body. reflexivity. }
  rewrite Hrun. cbn [fst snd].
  assert (Hset : forall c e,
            sorted_set {| counters := c;
                          series := <[sk := <[m := float64_of_int (Unix t)]>
                                              (sorted_set s sk)]> (series s);
                          expiry := e |} sk
            = <[m := float64_of_int (Unix t)]> (sorted_set s sk)).
  { intros c e. unfold sorted_set at 1. cbn.
    rewrite lookup_insert_eq. reflexivity. }
  rewrite Hset.
  split; [reflexivity|]. split; [apply lookup_insert_eq|]. split.
  - apply map_size_insert_Some. exists old. exact Hold.
  - apply (count_in_range_overwrite _ _ old); assumption.
Qed.

Lemma recording_overwrites_reused_id_witness :
  let ts := NewTimeSeries "hits" (60 * Second) (3600 * Second) in
  let s0 := (IncreaseAtTime ts 2 (UnixTime 125 0) empty_store).1.2 in
  let s := {| counters := ∅; series := series s0; expiry := expiry s0 |} in
  let run := IncreaseAtTime ts 1 (UnixTime 130 0) s in
  run.1.1 = None
  /\ sorted_set run.1.2 "hits:ts:120" !! "hits:1" = Some 130
  /\ size (sorted_set run.1.2 "hits:ts:120") = 2%nat
  /\ count_in_range (sorted_set run.1.2 "hits:ts:120") 120 180 = 2.
Proof.
  intros ts s0 s run.
  apply (recording_overwrites_reused_id ts (UnixTime 130 0) s 125 120 180).
  - reflexivity.
  - vm_compute. split; discriminate.
  - vm_compute. split; discriminate.
Defined.

(** ** Resolution of one second *)

(** One iteration depends on the instant only through the two keys and
    the Unix time in seconds. *)
Lemma body_same_second {St : Type} `{Redis St}
    (ts : TimeSeries) (t t' : Time) (s : St) :
  bucketEpochSeconds ts t = bucketEpochSeconds ts t' ->
  Unix t = Unix t' ->
  IncreaseAtTime_body ts t s = IncreaseAtTime_body ts t' s.
Proof.
  intros Hb Hu. unfold IncreaseAtTime_body, makeKey.
  unfold bucketEpochSeconds in Hb. rewrite Hb, Hu. reflexivity.
Qed.

(** X11.  For a bucket width of a whole number of seconds, the part of
    the instant below one second never reaches the store: two instants
    within the same second make [IncreaseAtTime] send the same requests,
    with the same result, over any store. *)
Theorem IncreaseAtTime_drops_subseconds {St : Type} `{Redis St}
    (ts : TimeSeries) (n amount : Z) (t t' : Time) (s : St) :
  0 < n ->
  timestep ts = n * Second ->
  Unix t = Unix t' ->
  IncreaseAtTime ts amount t s = IncreaseAtTime ts amount t' s.
Proof.
  intros Hn Hw Hu.
  assert (Hq : t / timestep ts = t' / timestep ts).
  { rewrite Hw, (Z.mul_comm n Second).
    rewrite <- !Z.div_div by (unfold Second; lia).
    unfold Unix in Hu. f_equal. lia. }
  assert (Hb : bucketEpochSeconds ts t = bucketEpochSeconds ts t').
  { unfold bucketEpochSeconds.
    rewrite !Truncate_multiple by (rewrite Hw; unfold Second; lia).
    rewrite Hq. reflexivity. }
  unfold IncreaseAtTime. generalize (Z.to_nat amount) as k.
  intros k. revert s. induction k as [|k IH]; intros s; [reflexivity|].
  rewrite !IncreaseAtTime_loop_S.
  rewrite (body_same_second ts t t' s Hb Hu).
  destruct (IncreaseAtTime_body ts t' s) as [[[e|] sb] trb];
    [reflexivity|].
  rewrite IH. reflexivity.
Qed.

Lemma IncreaseAtTime_drops_subseconds_witness :
  let ts := NewTimeSeries "hits" (60 * Second) (3600 * Second) in
  IncreaseAtTime ts 3 (UnixTime 130 0) empty_store
  = IncreaseAtTime ts 3 (UnixTime 130 999999999) empty_store.
Proof.
  intros ts.
  apply (IncreaseAtTime_drops_subseconds ts 60 3).
  - lia.
  - reflexivity.
  - reflexivity.
Defined.

(** A new member with a score outside the bounds leaves the count as it
    was. *)
Lemma count_in_range_insert_outside (zs : gmap string float64) (m : string)
    (sc : float64) (lo hi : Z) :
  zs !! m = None ->
  ~ (float64_of_int lo <= sc <= float64_of_int hi) ->
  count_in_range (<[m := sc]> zs) lo hi = count_in_range zs lo hi.
Proof.
  intros Hnew Hout. unfold count_in_range.
  rewrite map_filter_insert_False by exact Hout.
  rewrite delete_id by exact Hnew. reflexivity.
Qed.

(** Recording events whose score lies outside the bounds of a query. *)
Lemma mem_loop_outside (ts : TimeSeries) (t : Time) (n : nat)
    (s : MemStore) (lo hi : Z) :
  let ck := makeKey ts (counterKey ts) t in
  let sk := makeKey ts (seriesKey ts) t in
  ids_unused ts s ck sk ->
  ~ (float64_of_int lo <= float64_of_int (Unix t) <= float64_of_int hi) ->
  let run := IncreaseAtTime_loop ts t n s in
  run.1.1 = None
  /\ count_in_range (sorted_set run.1.2 sk) lo hi
     = count_in_range (sorted_set s sk) lo hi.
Proof.
  intros ck sk Hun Hout. revert s Hun.
  induction n as [|n IH]; intros s Hun.
  - cbn. split; reflexivity.
  - cbn zeta. rewrite IncreaseAtTime_loop_S, mem_body. cbn zeta.
    fold ck sk.
    set (id := counter_value s ck + 1).
    set (s1 := {| counters := <[ck := id]> (counters s);
                  series := <[sk := <[memberName ts id
                                       := float64_of_int (Unix t)]>
                                      (sorted_set s sk)]> (series s);
                  expiry := <[sk := ttlSeconds ts]>
                              (<[ck := ttlSeconds ts]> (expiry s)) |}).
    assert (Hc1 : counter_value s1 ck = id).
    { unfold counter_value, s1. cbn. rewrite lookup_insert_eq. reflexivity. }
    assert (Hs1 : sorted_set s1 sk
                  = <[memberName ts id := float64_of_int (Unix t)]>
                      (sorted_set s sk)).
    { unfold sorted_set at 1, s1. cbn. rewrite lookup_insert_eq. reflexivity. }
    assert (Hun1 : ids_unused ts s1 ck sk).
    { intros i Hi. rewrite Hc1 in Hi. rewrite Hs1.
      rewrite lookup_insert_ne.
      - apply Hun. unfold id in Hi. lia.
      - intros Heq. apply memberName_inj in Heq. lia. }
    destruct (IH s1 Hun1) as (Hr & Hn).
    destruct (IncreaseAtTime_loop ts t n s1) as [[r s'] tr'].
    cbn [fst snd] in *. split; [exact Hr|].
    rewrite Hn, Hs1. apply count_in_range_insert_outside.
    + apply Hun. unfold id. lia.
    + exact Hout.
Qed.

(** A query whose two ends lie in one bucket, on the in-memory store. *)
Lemma mem_Range_one_bucket (ts : TimeSeries) (fuel : nat)
    (start end_ : Time) (s : MemStore) :
  0 < timestep ts ->
  After start end_ = false ->
  end_ < Truncate start (timestep ts) + timestep ts ->
  let key := makeKey ts (seriesKey ts) start in
  Range ts (S fuel) start end_ s
  = (Returned (float64_of_int
                 (add_int 0 (count_in_range (sorted_set s key)
                               (Unix start) (Unix end_)))) None,
     s, [CZCount key (Unix start) (Unix end_)]).
Proof.
  intros Hw HA Hend key. unfold Range. rewrite HA.
  rewrite Range_loop_S. cbn zeta.
  rewrite makeKey_Truncate, mem_ZCount_run. fold key.
  unfold After, Add.
  destruct (Z.ltb_spec end_ (Truncate start (timestep ts) + timestep ts));
    [reflexivity|lia].
Qed.

(** X12.  On the in-memory store, [Range] counts by whole seconds with
    both ends included.  With a positive bucket width, [start], [end_] and
    [t] in one bucket whose series key was absent, and [t]'s Unix time in
    seconds between those of [start] and [end_]: after recording [k]
    events at [t], [Range(start, end_)] returns [k].  This covers an event
    recorded exactly at [end_], and one recorded after [end_] within the
    same second. *)
Theorem Range_counts_whole_seconds (ts : TimeSeries) (start end_ t : Time)
    (k : Z) (fuel : nat) (s : MemStore) :
  let sk := makeKey ts (seriesKey ts) t in
  0 < timestep ts ->
  0 <= k <= int_max ->
  series s !! sk = None ->
  After start end_ = false ->
  Truncate start (timestep ts) = Truncate t (timestep ts) ->
  end_ < Truncate t (timestep ts) + timestep ts ->
  Unix start <= Unix t <= Unix end_ ->
  let run := IncreaseAtTime ts k t s in
  run.1.1 = None
  /\ Range ts (S fuel) start end_ run.1.2
     = (Returned (float64_of_int k) None, run.1.2,
        [CZCount sk (Unix start) (Unix end_)]).
Proof.
  intros sk Hw Hk Habs HA HT Hend Hu run.
  assert (Hin : float64_of_int (Unix start) <= float64_of_int (Unix t)
                <= float64_of_int (Unix end_))
    by (split; apply float64_of_int_mono; lia).
  destruct (mem_loop ts t (Z.to_nat k) s (Unix start) (Unix end_)
              (ids_unused_absent ts s _ _ Habs) Hin)
    as (Hr & _ & Hn & _).
  fold (IncreaseAtTime ts k t s) in Hr, Hn. fold run sk in Hr, Hn.
  rewrite (sorted_set_absent _ _ Habs), count_in_range_empty in Hn.
  split; [exact Hr|].
  rewrite mem_Range_one_bucket by (try assumption; rewrite HT; exact Hend).
  assert (Hkey : makeKey ts (seriesKey ts) start = sk).
  { unfold sk, makeKey. rewrite HT. reflexivity. }
  rewrite Hkey, Hn. unfold add_int.
  rewrite wrap_int_small
    by (unfold is_int, int_min, int_max in *; lia).
  repeat f_equal. lia.
Qed.

Lemma Range_counts_whole_seconds_witness :
  let ts := NewTimeSeries "hits" (60 * Second) (3600 * Second) in
  let start := UnixTime 125 0 in
  let end_ := UnixTime 130 0 in
  let t := UnixTime 130 900000000 in
  let run := IncreaseAtTime ts 4 t empty_store in
  run.1.1 = None
  /\ Range ts 1 start end_ run.1.2
     = (Returned (float64_of_int 4) None, run.1.2,
        [CZCount "hits:ts:120" 125 130]).
Proof.
  intros ts start end_ t run.
  apply (Range_counts_whole_seconds ts start end_ t 4 0 empty_store).
  - reflexivity.
  - unfold int_max. lia.
  - reflexivity.
  - reflexivity.
  - reflexivity.
  - reflexivity.
  - vm_compute. split; discriminate.
Defined.

(** X13.  On the in-memory store, under the same conditions but with
    [t]'s Unix time in seconds before that of [start] or after that of
    [end_] (all three of magnitude at most [2^53], where scores are
    exact), the events recorded at [t] are not counted: [Range(start,
    end_)] returns 0. *)
Theorem Range_excludes_other_seconds (ts : TimeSeries) (start end_ t : Time)
    (k : Z) (fuel : nat) (s : MemStore) :
  let sk := makeKey ts (seriesKey ts) t in
  0 < timestep ts ->
  series s !! sk = None ->
  After start end_ = false ->
  Truncate start (timestep ts) = Truncate t (timestep ts) ->
  end_ < Truncate t (timestep ts) + timestep ts ->
  - 2 ^ 53 <= Unix start <= 2 ^ 53 ->
  - 2 ^ 53 <= Unix end_ <= 2 ^ 53 ->
  - 2 ^ 53 <= Unix t <= 2 ^ 53 ->
  Unix t < Unix start \/ Unix end_ < Unix t ->
  let run := IncreaseAtTime ts k t s in
  run.1.1 = None
  /\ Range ts (S fuel) start end_ run.1.2
     = (Returned 0 None, run.1.2, [CZCount sk (Unix start) (Unix end_)]).
Proof.
  intros sk Hw Habs HA HT Hend Hbs Hbe Hbt Hout run.
  assert (Hnot : ~ (float64_of_int (Unix start) <= float64_of_int (Unix t)
                    <= float64_of_int (Unix end_))).
  { rewrite !float64_of_int_exact by assumption. lia. }
  destruct (mem_loop_outside ts t (Z.to_nat k) s (Unix start) (Unix end_)
              (ids_unused_absent ts s _ _ Habs) Hnot)
    as (Hr & Hn).
  fold (IncreaseAtTime ts k t s) in Hr, Hn. fold run sk in Hr, Hn.
  rewrite (sorted_set_absent _ _ Habs), count_in_range_empty in Hn.
  split; [exact Hr|].
  rewrite mem_Range_one_bucket by (try assumption; rewrite HT; exact Hend).
  assert (Hkey : makeKey ts (seriesKey ts) start = sk).
  { unfold sk, makeKey. rewrite HT. reflexivity. }
  rewrite Hkey, Hn. reflexivity.
Qed.

Lemma Range_excludes_other_seconds_witness :
  let ts := NewTimeSeries "hits" (60 * Second) (3600 * Second) in
  let start := UnixTime 125 0 in
  let end_ := UnixTime 130 0 in
  let t := UnixTime 131 0 in
  let run := IncreaseAtTime ts 4 t empty_store in
  run.1.1 = None
  /\ Range ts 1 start end_ run.1.2
     = (Returned 0 None, run.1.2, [CZCount "hits:ts:120" 125 130]).
Proof.
  intros ts start end_ t run.
  apply (Range_excludes_other_seconds ts start end_ t 4 0 empty_store).
  - reflexivity.
  - reflexivity.
  - reflexivity.
  - reflexivity.
  - reflexivity.
  - vm_compute. split; discriminate.
  - vm_compute. split; discriminate.
  - vm_compute. split; discriminate.
  - right. reflexivity.
Defined.

(** ** Counting a history of recordings *)

Lemma sum_buckets_ext (ts : TimeSeries) (f g : Time -> Z) (c0 : Time)
    (m : nat) :
  (forall c, f c = g c) -> sum_buckets ts f c0 m = sum_buckets ts g c0 m.
Proof.
  intros Hfg. revert c0. induction m as [|m IH]; intros c0; [reflexivity|].
  cbn. rewrite Hfg, IH. reflexivity.
Qed.

Lemma sum_buckets_plus (ts : TimeSeries) (f g : Time -> Z) (c0 : Time)
    (m : nat) :
  sum_buckets ts (fun c => f c + g c) c0 m
  = sum_buckets ts f c0 m + sum_buckets ts g c0 m.
Proof.
  revert c0. induction m as [|m IH]; intros c0; [reflexivity|].
  cbn. rewrite IH. lia.
Qed.

Lemma sum_buckets_zero (ts : TimeSeries) (c0 : Time) (m : nat) :
  sum_buckets ts (fun _ => 0) c0 m = 0.
Proof.
  revert c0. induction m as [|m IH]; intros c0; [reflexivity|].
  cbn. rewrite IH. reflexivity.
Qed.

Lemma sum_buckets_nonneg (ts : TimeSeries) (f : Time -> Z) (c0 : Time)
    (m : nat) :
  (forall c, 0 <= f c) -> 0 <= sum_buckets ts f c0 m.
Proof.
  intros Hf. revert c0. induction m as [|m IH]; intros c0; [cbn; lia|].
  cbn. specialize (IH (Add c0 (timestep ts))). specialize (Hf c0). lia.
Qed.

(** The loop of [Range] on the in-memory store: it visits [m] buckets
    and adds up their counts. *)
Lemma mem_Range_loop (ts : TimeSeries) (start end_ : Time) (s : MemStore)
    (m extra : nat) (c0 : Time) (n0 : Z) :
  let count c :=
    count_in_range (sorted_set s (makeKey ts (seriesKey ts) c))
      (Unix start) (Unix end_) in
  0 < timestep ts ->
  c0 <= end_ ->
  Z.of_nat m = (end_ - c0) / timestep ts + 1 ->
  0 <= n0 ->
  n0 + sum_buckets ts count c0 m <= int_max ->
  Range_loop ts start end_ (m + extra) c0 n0 s
  = (Returned (float64_of_int (n0 + sum_buckets ts count c0 m)) None, s,
     bucket_queries ts start end_ c0 m).
Proof.
  intros count Hw. revert c0 n0.
  induction m as [|m IH]; intros c0 n0 Hc Hm Hn0 Hmax.
  - exfalso. pose proof (Z.div_pos (end_ - c0) (timestep ts)). lia.
  - cbn [Nat.add]. rewrite Range_loop_S. cbn zeta.
    rewrite mem_ZCount_run. fold (count c0).
    assert (Hcnt : 0 <= count c0) by apply count_in_range_nonneg.
    assert (Hrest : 0 <= sum_buckets ts count (Add c0 (timestep ts)) m)
      by (apply sum_buckets_nonneg; intros c; apply count_in_range_nonneg).
    cbn [sum_buckets] in Hmax.
    assert (Hadd : add_int n0 (count c0) = n0 + count c0).
    { unfold add_int. apply wrap_int_small.
      unfold is_int, int_min, int_max in *. lia. }
    rewrite Hadd, bucket_queries_S.
    unfold After at 1.
    destruct (Z.ltb_spec end_ (Add c0 (timestep ts))) as [Hlt|Hge].
    + assert (Hq : (end_ - c0) / timestep ts = 0)
        by (apply Z.div_small; unfold Add in Hlt; lia).
      assert (m = 0%nat) by lia. subst m. cbn.
      rewrite Z.add_0_r. reflexivity.
    + assert (Hdiv : (end_ - Add c0 (timestep ts)) / timestep ts
                     = (end_ - c0) / timestep ts - 1).
      { unfold Add.
        replace (end_ - (c0 + timestep ts))
          with ((end_ - c0) + (-1) * timestep ts) by lia.
        rewrite Z.div_add by lia. lia. }
      rewrite (IH (Add c0 (timestep ts)) (n0 + count c0));
        [|lia|rewrite Hdiv; lia|lia|lia].
      cbn [sum_buckets]. rewrite Z.add_assoc. reflexivity.
Qed.

Lemma makeKey_of_bucket (ts : TimeSeries) (prefix : string) (t t' : Time) :
  bucketEpochSeconds ts t = bucketEpochSeconds ts t' ->
  makeKey ts prefix t = makeKey ts prefix t'.
Proof.
  unfold makeKey, bucketEpochSeconds. intros ->. reflexivity.
Qed.

(** Within [2^53] the order of scores is the order of the seconds. *)
Lemma in_seconds_score (lo hi : Z) (t : Time) :
  - 2 ^ 53 <= lo <= 2 ^ 53 ->
  - 2 ^ 53 <= hi <= 2 ^ 53 ->
  - 2 ^ 53 <= Unix t <= 2 ^ 53 ->
  in_seconds lo hi t = true
  <-> float64_of_int lo <= float64_of_int (Unix t) <= float64_of_int hi.
Proof.
  intros Hlo Hhi Ht. unfold in_seconds.
  rewrite !float64_of_int_exact by assumption.
  rewrite andb_true_iff, !Z.leb_le. reflexivity.
Qed.

(** One call of [IncreaseAtTime] in a history. *)
Lemma record_one (ts : TimeSeries) (k : Z) (t : Time) (s : MemStore)
    (lo hi : Z) :
  all_ids_unused ts s ->
  0 <= k ->
  - 2 ^ 53 <= lo <= 2 ^ 53 ->
  - 2 ^ 53 <= hi <= 2 ^ 53 ->
  - 2 ^ 53 <= Unix t <= 2 ^ 53 ->
  let s1 := (IncreaseAtTime ts k t s).1.2 in
  all_ids_unused ts s1
  /\ forall key,
       count_in_range (sorted_set s1 key) lo hi
       = count_in_range (sorted_set s key) lo hi
         + (if in_seconds lo hi t
               && bool_decide (makeKey ts (seriesKey ts) t = key)
            then k else 0).
Proof.
  intros Hinv Hk Hlo Hhi Ht s1.
  set (ck := makeKey ts (counterKey ts) t).
  set (sk := makeKey ts (seriesKey ts) t).
  assert (Hself : float64_of_int (Unix t) <= float64_of_int (Unix t)
                  <= float64_of_int (Unix t)) by lia.
  destruct (mem_loop ts t (Z.to_nat k) s (Unix t) (Unix t) (Hinv t) Hself)
    as (_ & _ & _ & Hu & Hse & Hco).
  fold (IncreaseAtTime ts k t s) in Hu, Hse, Hco.
  fold s1 ck sk in Hu, Hse, Hco.
  split.
  - intros t'.
    destruct (decide (makeKey ts (seriesKey ts) t' = sk)) as [Heq|Hne].
    + assert (Hb : bucketEpochSeconds ts t' = bucketEpochSeconds ts t)
        by (apply (makeKey_inj ts (seriesKey ts)); exact Heq).
      rewrite (makeKey_of_bucket ts (counterKey ts) t' t Hb).
      rewrite (makeKey_of_bucket ts (seriesKey ts) t' t Hb).
      exact Hu.
    + assert (Hnc : makeKey ts (counterKey ts) t' <> ck).
      { intros Heq. apply Hne.
        apply makeKey_of_bucket, (makeKey_inj ts (counterKey ts)).
        exact Heq. }
      intros id Hid. unfold counter_value in Hid.
      rewrite (Hco _ Hnc) in Hid.
      rewrite (sorted_set_eq s s1 _ (Hse _ Hne)).
      apply (Hinv t' id). exact Hid.
  - intros key.
    destruct (decide (sk = key)) as [<-|Hne].
    + rewrite bool_decide_eq_true_2, andb_true_r by reflexivity.
      destruct (in_seconds lo hi t) eqn:Ein.
      * apply in_seconds_score in Ein; try assumption.
        destruct (mem_loop ts t (Z.to_nat k) s lo hi (Hinv t) Ein)
          as (_ & _ & Hn & _).
        fold (IncreaseAtTime ts k t s) in Hn. fold s1 sk in Hn.
        rewrite Hn, Z2Nat.id by exact Hk. reflexivity.
      * assert (Hout : ~ (float64_of_int lo <= float64_of_int (Unix t)
                          <= float64_of_int hi)).
        { intros Hin. apply in_seconds_score in Hin; try assumption.
          congruence. }
        destruct (mem_loop_outside ts t (Z.to_nat k) s lo hi (Hinv t) Hout)
          as (_ & Hn).
        fold (IncreaseAtTime ts k t s) in Hn. fold s1 sk in Hn.
        rewrite Hn. lia.
    + rewrite bool_decide_eq_false_2, andb_false_r by exact Hne.
      rewrite (sorted_set_eq s s1 key) by (apply Hse; congruence). lia.
Qed.

(** What a history leaves under each series key. *)
Lemma record_all_counts (ts : TimeSeries) (evs : list (Z * Time))
    (s : MemStore) (lo hi : Z) :
  all_ids_unused ts s ->
  Forall (fun e : Z * Time => 0 <= e.1 /\ - 2 ^ 53 <= Unix e.2 <= 2 ^ 53)
    evs ->
  - 2 ^ 53 <= lo <= 2 ^ 53 ->
  - 2 ^ 53 <= hi <= 2 ^ 53 ->
  forall key,
    count_in_range (sorted_set (record_all ts evs s) key) lo hi
    = count_in_range (sorted_set s key) lo hi + tally ts key lo hi evs.
Proof.
  intros Hinv Hev Hlo Hhi. revert s Hinv.
  induction Hev as [|[k t] evs [Hk Ht] Hev IH]; intros s Hinv key.
  - cbn. lia.
  - cbn [record_all tally]. cbn [fst snd] in Hk, Ht.
    destruct (record_one ts k t s lo hi Hinv Hk Hlo Hhi Ht) as [Hinv1 Hcnt].
    rewrite (IH _ Hinv1 key), Hcnt. lia.
Qed.

(** For a width of a second or more, equal keys mean equal buckets. *)
Lemma makeKey_bucket_inj (ts : TimeSeries) (prefix : string) (t1 t2 : Time) :
  Second <= timestep ts ->
  makeKey ts prefix t1 = makeKey ts prefix t2 ->
  Truncate t1 (timestep ts) = Truncate t2 (timestep ts).
Proof.
  intros Hw Heq.
  assert (Hpos : 0 < timestep ts) by (unfold Second in Hw; lia).
  apply makeKey_inj in Heq. unfold bucketEpochSeconds in Heq.
  rewrite !Truncate_multiple in * by exact Hpos.
  set (w := timestep ts) in *.
  destruct (Z.lt_trichotomy (t1 / w) (t2 / w)) as [Hlt|[Heq'|Hgt]].
  - exfalso.
    pose proof (Unix_step (w * (t1 / w)) w Hw) as Hs.
    pose proof (Unix_mono (w * (t1 / w) + w) (w * (t2 / w))) as Hm.
    assert (w * (t1 / w) + w <= w * (t2 / w)) by nia. lia.
  - rewrite Heq'. reflexivity.
  - exfalso.
    pose proof (Unix_step (w * (t2 / w)) w Hw) as Hs.
    pose proof (Unix_mono (w * (t2 / w) + w) (w * (t1 / w))) as Hm.
    assert (w * (t2 / w) + w <= w * (t1 / w)) by nia. lia.
Qed.

Section OneBucketPerEvent.
Variable ts : TimeSeries.
Variables lo hi : Z.
Variable k : Z.
Variable t : Time.
Hypothesis Hw : Second <= timestep ts.

Let hit (c : Time) : Z :=
  if in_seconds lo hi t
     && bool_decide (makeKey ts (seriesKey ts) t = makeKey ts (seriesKey ts) c)
  then k else 0.

Let Hpos : 0 < timestep ts.
Proof. unfold Second in Hw. lia. Qed.

Lemma hit_other (c : Time) :
  Truncate c (timestep ts) = c ->
  Truncate t (timestep ts) <> c ->
  hit c = 0.
Proof.
  intros Hal Hne. unfold hit.
  rewrite bool_decide_eq_false_2, andb_false_r; [reflexivity|].
  intros Heq. apply Hne.
  rewrite <- Hal. apply (makeKey_bucket_inj ts (seriesKey ts)); assumption.
Qed.

(** Buckets after the event's bucket do not hold it. *)
Lemma sum_hit_later (c0 : Time) (m : nat) :
  Truncate c0 (timestep ts) = c0 ->
  Truncate t (timestep ts) < c0 ->
  sum_buckets ts hit c0 m = 0.
Proof.
  revert c0. induction m as [|m IH]; intros c0 Hal Hlt; [reflexivity|].
  cbn [sum_buckets]. rewrite hit_other by (try assumption; lia).
  rewrite IH; [reflexivity| |unfold Add; lia].
  unfold Add. replace (c0 + timestep ts) with (c0 + 1 * timestep ts) by lia.
  rewrite Truncate_shift, Hal by exact Hpos. reflexivity.
Qed.

(** Among consecutive buckets that include the event's bucket, exactly
    one holds it. *)
Lemma sum_hit_once (c0 : Time) (m j : nat) :
  Truncate c0 (timestep ts) = c0 ->
  in_seconds lo hi t = true ->
  Truncate t (timestep ts) = c0 + Z.of_nat j * timestep ts ->
  (j < m)%nat ->
  sum_buckets ts hit c0 m = k.
Proof.
  revert c0 j. induction m as [|m IH]; intros c0 j Hal Hin HT Hj; [lia|].
  assert (Hal' : Truncate (Add c0 (timestep ts)) (timestep ts)
                 = Add c0 (timestep ts)).
  { unfold Add. replace (c0 + timestep ts) with (c0 + 1 * timestep ts) by lia.
    rewrite Truncate_shift, Hal by exact Hpos. reflexivity. }
  cbn [sum_buckets]. destruct j as [|j].
  - replace (c0 + Z.of_nat 0 * timestep ts) with c0 in HT by lia.
    rewrite sum_hit_later by (try assumption; unfold Add; lia).
    unfold hit. rewrite Hin, bool_decide_eq_true_2; [cbn; lia|].
    unfold makeKey. rewrite HT, Hal. reflexivity.
  - rewrite hit_other by (try assumption; nia).
    rewrite (IH (Add c0 (timestep ts)) j); [lia|exact Hal'|exact Hin| |lia].
    rewrite HT. unfold Add. lia.
Qed.
End OneBucketPerEvent.

(** For a width of whole seconds, an instant whose second lies between
    those of [start] and [end_] falls in one of the buckets that [Range]
    visits. *)
Lemma bucket_index (ts : TimeSeries) (n : Z) (start end_ t : Time)
    (m : nat) :
  0 < n ->
  timestep ts = n * Second ->
  in_seconds (Unix start) (Unix end_) t = true ->
  Z.of_nat m
  = (end_ - Truncate start (timestep ts)) / timestep ts + 1 ->
  exists j : nat,
    (j < m)%nat
    /\ Truncate t (timestep ts)
       = Truncate start (timestep ts) + Z.of_nat j * timestep ts.
Proof.
  intros Hn Hw Hin Hm.
  assert (Hpos : 0 < timestep ts) by (rewrite Hw; unfold Second; lia).
  unfold in_seconds in Hin. apply andb_true_iff in Hin.
  destruct Hin as [H1 H2]. apply Z.leb_le in H1, H2. unfold Unix in H1, H2.
  assert (Hq : forall x, x / timestep ts = x / Second / n).
  { intros x. rewrite Hw, (Z.mul_comm n Second).
    rewrite Z.div_div by (unfold Second; lia). reflexivity. }
  assert (Hs : start / timestep ts <= t / timestep ts)
    by (rewrite !Hq; apply Z.div_le_mono; lia).
  assert (He : t / timestep ts <= end_ / timestep ts)
    by (rewrite !Hq; apply Z.div_le_mono; lia).
  rewrite !Truncate_multiple in * by exact Hpos.
  assert (Hd : (end_ - timestep ts * (start / timestep ts)) / timestep ts
               = end_ / timestep ts - start / timestep ts).
  { replace (end_ - timestep ts * (start / timestep ts))
      with (end_ + (- (start / timestep ts)) * timestep ts) by lia.
    rewrite Z.div_add by lia. lia. }
  exists (Z.to_nat (t / timestep ts - start / timestep ts)). split.
  - lia.
  - rewrite Z2Nat.id by lia. lia.
Qed.

(** The events that the visited buckets hold between the two bounds are
    the events of the history between the two bounds. *)
Lemma tally_buckets (ts : TimeSeries) (n : Z) (start end_ : Time) (m : nat)
    (evs : list (Z * Time)) :
  0 < n ->
  timestep ts = n * Second ->
  Z.of_nat m
  = (end_ - Truncate start (timestep ts)) / timestep ts + 1 ->
  sum_buckets ts
    (fun c => tally ts (makeKey ts (seriesKey ts) c)
                (Unix start) (Unix end_) evs)
    (Truncate start (timestep ts)) m
  = events_between (Unix start) (Unix end_) evs.
Proof.
  intros Hn Hw Hm.
  assert (Hsec : Second <= timestep ts) by (rewrite Hw; unfold Second; lia).
  induction evs as [|[k t] evs IH].
  - cbn [tally events_between]. apply sum_buckets_zero.
  - cbn [tally events_between]. rewrite sum_buckets_plus, IH. f_equal.
    destruct (in_seconds (Unix start) (Unix end_) t) eqn:Hin.
    + destruct (bucket_index ts n start end_ t m Hn Hw Hin Hm)
        as (j & Hj & HT).
      pose proof (sum_hit_once ts (Unix start) (Unix end_) k t Hsec
                    (Truncate start (timestep ts)) m j
                    (Truncate_idem start (timestep ts)) Hin HT Hj) as Hs.
      rewrite Hin in Hs. exact Hs.
    + cbn [andb]. apply sum_buckets_zero.
Qed.

(** X14.  On the in-memory store, for a bucket width of a whole number
    of seconds: after any history of recordings made on the empty store,
    [Range(start, end_)] returns the number of events recorded at
    instants whose Unix time in seconds lies between [start.Unix()] and
    [end_.Unix()], both included, having sent one count query per bucket
    (Unix times of magnitude at most [2^53], amounts not negative, the
    number of events within [int]). *)
Theorem Range_counts_events (ts : TimeSeries) (n : Z) (start end_ : Time)
    (evs : list (Z * Time)) (fuel : nat) :
  0 < n ->
  timestep ts = n * Second ->
  After start end_ = false ->
  Forall (fun e : Z * Time => 0 <= e.1 /\ - 2 ^ 53 <= Unix e.2 <= 2 ^ 53)
    evs ->
  - 2 ^ 53 <= Unix start ->
  Unix end_ <= 2 ^ 53 ->
  events_between (Unix start) (Unix end_) evs <= int_max ->
  (end_ - start) / timestep ts + 1 <= Z.of_nat fuel ->
  let s := record_all ts evs empty_store in
  let first := Truncate start (timestep ts) in
  Range ts (S fuel) start end_ s
  = (Returned
       (float64_of_int (events_between (Unix start) (Unix end_) evs)) None,
     s,
     bucket_queries ts start end_ first
       (Z.to_nat ((end_ - first) / timestep ts + 1))).
Proof.
  intros Hn Hw HA Hev Hlo Hhi Hmax Hfuel s first.
  assert (Hpos : 0 < timestep ts) by (rewrite Hw; unfold Second; lia).
  unfold After in HA. apply Z.ltb_ge in HA.
  pose proof (Unix_mono start end_ HA) as Hse.
  pose proof (Truncate_bounds start (timestep ts) Hpos) as Hb.
  fold first in Hb.
  set (m := Z.to_nat ((end_ - first) / timestep ts + 1)).
  assert (Hq : 0 <= (end_ - first) / timestep ts)
    by (apply Z.div_pos; lia).
  assert (Hm : Z.of_nat m = (end_ - first) / timestep ts + 1)
    by (unfold m; lia).
  assert (Hle : (m <= S fuel)%nat).
  { assert ((end_ - first) / timestep ts
            <= (end_ - start + 1 * timestep ts) / timestep ts)
      by (apply Z.div_le_mono; lia).
    rewrite Z.div_add in * by lia. lia. }
  assert (Hcount : forall c,
            count_in_range (sorted_set s (makeKey ts (seriesKey ts) c))
              (Unix start) (Unix end_)
            = tally ts (makeKey ts (seriesKey ts) c)
                (Unix start) (Unix end_) evs).
  { intros c. unfold s.
    rewrite (record_all_counts ts evs empty_store (Unix start) (Unix end_));
      [|intros t' id _; apply lookup_empty|exact Hev|lia|lia].
    unfold sorted_set. cbn. rewrite lookup_empty. cbn.
    rewrite count_in_range_empty. lia. }
  unfold Range, After.
  destruct (Z.ltb_spec end_ start); [lia|]. fold first.
  replace (S fuel) with (m + (S fuel - m))%nat by lia.
  rewrite mem_Range_loop;
    rewrite ?(sum_buckets_ext ts _ _ first m Hcount);
    unfold first; rewrite ?(tally_buckets ts n start end_ m evs Hn Hw Hm);
    fold first; try assumption; try lia.
  reflexivity.
Qed.

Lemma Range_counts_events_witness :
  let ts := NewTimeSeries "hits" (60 * Second) (3600 * Second) in
  let evs := [(3, UnixTime 100 0); (5, UnixTime 130 500); (2, UnixTime 200 0);
              (4, UnixTime 251 0); (1, UnixTime 10 0)] in
  let s := record_all ts evs empty_store in
  Range ts 4 (UnixTime 130 0) (UnixTime 250 0) s
  = (Returned (float64_of_int 7) None, s,
     [CZCount "hits:ts:120" 130 250; CZCount "hits:ts:180" 130 250;
      CZCount "hits:ts:240" 130 250]).
Proof.
  intros ts evs s.
  apply (Range_counts_events ts 60 (UnixTime 130 0) (UnixTime 250 0) evs 3).
  - lia.
  - reflexivity.
  - reflexivity.
  - repeat constructor; vm_compute; discriminate.
  - vm_compute. discriminate.
  - vm_compute. discriminate.
  - vm_compute. discriminate.
  - vm_compute. discriminate.
Defined.
